(** * 3by3: a 3x3 image grid composer

    Shallow embedding of the [GridApp] controller (grid addressing, image
    acquisition with its cross-origin fallback chain, cover-fit rendering and
    export), with the properties of its specification stated and settled
    against the code.

    Modelling conventions.
    - A JavaScript number is modelled as the rational it denotes, and each
      arithmetic operation of the code ([+], [-], [*], [/]) as the exact
      operation followed by rounding to IEEE 754 binary64 (round to nearest,
      ties to even, gradual underflow): module [Binary64].  Comparisons,
      [Math.floor], [Math.min] and [Math.abs] are exact.  Overflow to an
      infinity, NaN (division by zero included) and the sign of zero are
      outside the model; a theorem about computed values names the
      conditions under which every intermediate result is a finite number.
    - The browser (image decoding, file reading, HTML parsing, canvas
      serialisation) is an explicit environment record: each external call
      has its outcome supplied by the environment.
    - A method of the controller is a function from the controller's fields
      to a completion, the new fields and the list of observable effects. *)

From Stdlib Require Import ZArith QArith Qround Qabs Qminmax Qpower String List Lia Lqa.
From Stdlib Require Import Floats.SpecFloat.
From stdpp Require Import base gmap sets list strings.

(** ** Binary64 arithmetic *)

Module Binary64.

Local Open Scope Q_scope.

(** [2^k], for any integer [k]. *)
Definition pow2 (k : Z) : Q := 2 ^ k.

(** The binade of a positive rational: the [k] with [2^k <= q < 2^(k+1)]. *)
Definition ilog2 (q : Q) : Z :=
  let k := (Z.log2 (Qnum q) - Z.log2 (Zpos (Qden q)))%Z in
  if Qle_bool (pow2 k) q then k else (k - 1)%Z.

(** The nearest integer, ties to the even one. *)
Definition rne (q : Q) : Z :=
  let f := Qfloor q in
  match Qcompare (q - inject_Z f) (1 # 2) with
  | Lt => f
  | Gt => (f + 1)%Z
  | Eq => if Z.even f then f else (f + 1)%Z
  end.

(** The exponent of the unit in the last place of a positive rational: 53
    significant bits, and no exponent below that of the subnormal numbers. *)
Definition ulp_exponent (q : Q) : Z := Z.max (ilog2 q - 52) (-1074).

Definition round_positive (q : Q) : Q :=
  let e := ulp_exponent q in inject_Z (rne (q / pow2 e)) * pow2 e.

(** Rounding to the nearest binary64 number (exponent range unbounded above:
    a result of magnitude [2^1024] or more is an overflow). *)
Definition round64 (q : Q) : Q :=
  match Qcompare q 0 with
  | Eq => 0
  | Gt => round_positive q
  | Lt => - round_positive (- q)
  end.

(** The binary64 numbers: a significand below [2^53] and an exponent of at
    least [-1074]. *)
Definition representable (q : Q) : Prop :=
  exists m e : Z,
    (Z.abs m < 2 ^ 53)%Z /\ (-1074 <= e)%Z /\ q == inject_Z m * pow2 e.

(** A rounded result that did not overflow. *)
Definition is_finite (q : Q) : Prop := Qabs q < pow2 1024.

(** The four operations of the code on numbers. *)
Definition fadd (a b : Q) : Q := round64 (a + b).
Definition fsub (a b : Q) : Q := round64 (a - b).
Definition fmul (a b : Q) : Q := round64 (a * b).
Definition fdiv (a b : Q) : Q := round64 (a / b).

(** *** Comparison with the Standard Library's specification of IEEE 754 *)

Definition SF64 (m e : Z) : spec_float := binary_normalize 53 1024 m e false.

(** The rational a finite [spec_float] denotes. *)
Definition SF2Q (f : spec_float) : Q :=
  match f with
  | S754_finite s m e =>
      (if s then - inject_Z (Zpos m) else inject_Z (Zpos m)) * pow2 e
  | _ => 0
  end.

(** Both implementations give the same sum, difference, product and
    quotient on a pair of operands. *)
Definition agree (a b : spec_float) : bool :=
  Qeq_bool (fadd (SF2Q a) (SF2Q b)) (SF2Q (SFadd 53 1024 a b)) &&
  Qeq_bool (fsub (SF2Q a) (SF2Q b)) (SF2Q (SFsub 53 1024 a b)) &&
  Qeq_bool (fmul (SF2Q a) (SF2Q b)) (SF2Q (SFmul 53 1024 a b)) &&
  Qeq_bool (fdiv (SF2Q a) (SF2Q b)) (SF2Q (SFdiv 53 1024 a b)).

(** Operands that occur in the evaluations below, and some that round. *)
Definition samples : list (spec_float * spec_float) :=
  [ (SF64 900 0, SF64 873 0);
    (SF64 1200 0, SF64 1164 0);
    (SF64 291 0, SFdiv 53 1024 (SF64 900 0) (SF64 873 0));
    (SF64 388 0, SFdiv 53 1024 (SF64 1200 0) (SF64 1164 0));
    (SFmul 53 1024 (SF64 291 0) (SFdiv 53 1024 (SF64 900 0) (SF64 873 0)), SF64 300 0);
    (SF64 300 0, SF64 281 0);
    (SF64 281 0, SFdiv 53 1024 (SF64 300 0) (SF64 281 0));
    (SF64 400 0, SFmul 53 1024 (SF64 281 0) (SFdiv 53 1024 (SF64 300 0) (SF64 281 0)));
    (SF64 1 0, SF64 10 0);
    (SF64 1 0, SF64 3 0);
    (SF64 900 0, SF64 98 0);
    (SF64 7 (-1074), SF64 400 0);
    (SF64 1 (-1074), SF64 2 0);
    (SF64 3 (-1074), SF64 2 0);
    (SF64 9007199254740991 0, SF64 3 0);
    (SF64 640 0, SF64 480 0) ].

End Binary64.

(** ** Grid geometry and addressing *)

Module Geometry.

Import Binary64.
Local Open Scope Q_scope.

(** The fields [gridWidth], [gridHeight], [cellWidth], [cellHeight]. *)
Definition gridWidth : Q := 900.
Definition gridHeight : Q := 1200.
Definition cellWidth : Q := 300.
Definition cellHeight : Q := 400.

(** What [canvas.getBoundingClientRect()] returns. *)
Record DOMRect := mkRect {
  rect_left : Q;
  rect_top : Q;
  rect_width : Q;
  rect_height : Q
}.

(** The canvas element: the size of its pixel buffer and where it is
    displayed.  Both come from the page, which the controller does not own. *)
Record Canvas := mkCanvas {
  canvas_width : Q;
  canvas_height : Q;
  canvas_rect : DOMRect
}.

Record GridPosition := mkPos {
  col : Z;
  row : Z;
  index : Z
}.

(** The pointer coordinate in the pixel space of the canvas buffer
    (the locals [x] and [y] of [getGridPosition]). *)
Definition surfaceX (cv : Canvas) (clientX : Q) : Q :=
  let rect := canvas_rect cv in
  let scaleX := fdiv (canvas_width cv) (rect_width rect) in
  fmul (fsub clientX (rect_left rect)) scaleX.

Definition surfaceY (cv : Canvas) (clientY : Q) : Q :=
  let rect := canvas_rect cv in
  let scaleY := fdiv (canvas_height cv) (rect_height rect) in
  fmul (fsub clientY (rect_top rect)) scaleY.

(** [col], [row] and [index] are numbers with an integral value: [Math.floor]
    of a quotient, and a product and a sum of such. *)
Definition getGridPosition (cv : Canvas) (clientX clientY : Q) : GridPosition :=
  let x := surfaceX cv clientX in
  let y := surfaceY cv clientY in
  let col := Qfloor (fdiv x cellWidth) in
  let row := Qfloor (fdiv y cellHeight) in
  let index := Qfloor (fadd (fmul (inject_Z row) 3) (inject_Z col)) in
  {| col := col; row := row; index := index |}.

(** [index >= 0 && index <= 8], the test of [handleClick]. *)
Definition index_in_range (i : Z) : bool := ((0 <=? i) && (i <=? 8))%Z.

(** [index < 0 || index > 8], the test of [handleDrop]. *)
Definition index_out_of_range (i : Z) : bool := ((i <? 0) || (8 <? i))%Z.

(** The canvas is on screen: its bounding box has a positive size.  Pointer
    events reach the canvas only then, and only then are the two scale
    factors quotients by a number other than zero. *)
Definition displayed (cv : Canvas) : Prop :=
  0 < rect_width (canvas_rect cv) /\ 0 < rect_height (canvas_rect cv).

(** Neither scale factor and neither pointer offset of [getGridPosition]
    overflows. *)
Definition finitely_scaled (cv : Canvas) (clientX clientY : Q) : Prop :=
  let rect := canvas_rect cv in
  is_finite (fdiv (canvas_width cv) (rect_width rect)) /\
  is_finite (fdiv (canvas_height cv) (rect_height rect)) /\
  is_finite (fsub clientX (rect_left rect)) /\
  is_finite (fsub clientY (rect_top rect)).

(** A point of the buffer space lies on the grid. *)
Definition on_grid (x y : Q) : Prop :=
  0 <= x /\ x < gridWidth /\ 0 <= y /\ y < gridHeight.

(** A canvas of the grid's size shown at its natural size at the origin. *)
Definition natural_canvas : Canvas :=
  mkCanvas 900 1200 (mkRect 0 0 900 1200).

(** The same buffer displayed at half its size. *)
Definition half_canvas : Canvas :=
  mkCanvas 900 1200 (mkRect 0 0 450 600).

(** The natural-size canvas laid out half a pixel to the right, as a
    centred or fractionally positioned element is; pointer coordinates of
    mouse events are whole pixels. *)
Definition offset_canvas : Canvas :=
  mkCanvas 900 1200 (mkRect (1 # 2) 0 900 1200).

(** The same buffer displayed at 97% of its size. *)
Definition shrunk_canvas : Canvas :=
  mkCanvas 900 1200 (mkRect 0 0 873 1164).

(** The same buffer displayed 98 pixels wide. *)
Definition narrow_canvas : Canvas :=
  mkCanvas 900 1200 (mkRect 0 0 98 1200).

End Geometry.

(** ** The browser objects the controller handles *)

Module Dom.

(** An image element as the controller configures and reads it: the [src]
    it was given, whether [crossOrigin = "anonymous"] was set before loading,
    and the decoded size ([img.width], [img.height]). *)
Record HTMLImageElement := mkImage {
  img_src : string;
  img_crossOrigin : bool;
  img_width : Z;
  img_height : Z
}.

(** A file of a drop or of the file picker: its MIME [type] and a name that
    identifies its content to the file reader. *)
Record File := mkFile {
  file_type : string;
  file_name : string
}.

(** The payload of a drop: [dt.files] and the three [dt.getData] formats
    ([getData] returns the empty string for a format that is absent). *)
Record DataTransfer := mkDataTransfer {
  dt_files : list File;
  dt_html : string;
  dt_uri_list : string;
  dt_plain : string
}.

(** How an image load ends: [onload] with the decoded size, [onerror], or
    neither (a request that hangs). *)
Inductive LoadOutcome :=
| Loaded (w h : Z)
| Errored
| Hung.

(** Calls on the 2D context, in the order issued. *)
Inductive CanvasOp :=
| FillRect (style : string) (x y w h : Q)
| DrawImage (img : HTMLImageElement) (sx sy sw sh dx dy dw dh : Q)
| FillText (style font text : string) (x y : Q)
| StrokeLines (style : string) (lineWidth : Q) (segments : list (Q * Q * Q * Q)).

(** The environment of one event: the outcome of each external call the
    handlers make while serving it. *)
Record Browser := mkBrowser {
  (** the canvas element and its bounding box *)
  canvas : Geometry.Canvas;
  (** [FileReader.readAsDataURL]: the data URL, or [None] when the read
      fails (no [onerror] is installed on the reader) *)
  readAsDataURL : File -> option string;
  (** assigning [img.src], with or without [crossOrigin] set *)
  loadOutcome : string -> bool -> LoadOutcome;
  (** [encodeURIComponent] *)
  encodeURIComponent : string -> string;
  (** [DOMParser.parseFromString(html, "text/html").querySelector("img")]:
      [None] when the fragment has no image element, else the [src]
      property of the first one (empty when it has no source) *)
  querySelectorImgSrc : string -> option string;
  (** [canvas.toDataURL("image/png")]: the data URL, or [None] when the
      call throws *)
  toDataURL : option string
}.

End Dom.

(** ** Cover-fit drawing *)

Module CoverFit.

Import Binary64 Dom.
Local Open Scope Q_scope.

Definition Qltb (a b : Q) : bool := if Qlt_le_dec a b then true else false.

(** [if (o < 0) o = 0; if (o > 1) o = 1;] *)
Definition clampOffset (o : Q) : Q :=
  let o := if Qltb o 0 then 0 else o in
  if Qltb 1 o then 1 else o.

(** The threshold [1e-14] of the second correction: the literal denotes the
    binary64 number nearest to 10^-14. *)
Definition epsilon : Q := round64 (1 # 100000000000000).

(** Every local of [drawImageProp] that the drawing depends on. *)
Record Fit := mkFit {
  fit_r : Q;        (* first ratio *)
  fit_nw0 : Q;      (* proposed width, before correction *)
  fit_nh0 : Q;      (* proposed height, before correction *)
  fit_ar : Q;       (* correction ratio *)
  fit_nw : Q;       (* final scaled width *)
  fit_nh : Q;       (* final scaled height *)
  fit_cx : Q;       (* source rectangle *)
  fit_cy : Q;
  fit_cw : Q;
  fit_ch : Q
}.

(** The correction ratio [ar] after the two tests of "decide which gap to
    fill", from the proposed size [nw] x [nh] and the cell [w] x [h]. *)
Definition correction (nw nh w h : Q) : Q :=
  let ar := 1 in
  let ar := if Qltb nw w then fdiv w nw else ar in
  let ar :=
    if Qltb (Qabs (fsub ar 1)) epsilon && Qltb nh h then fdiv h nh else ar in
  ar.

Definition fit (iw ih w h : Q) : Fit :=
  let offsetX := clampOffset (1 # 2) in
  let offsetY := clampOffset (1 # 2) in
  let r := Qmin (fdiv w iw) (fdiv h ih) in
  let nw0 := fmul iw r in
  let nh0 := fmul ih r in
  let ar := correction nw0 nh0 w h in
  let nw := fmul nw0 ar in
  let nh := fmul nh0 ar in
  let cw := fdiv iw (fdiv nw w) in
  let ch := fdiv ih (fdiv nh h) in
  let cx := fmul (fsub iw cw) offsetX in
  let cy := fmul (fsub ih ch) offsetY in
  let cx := if Qltb cx 0 then 0 else cx in
  let cy := if Qltb cy 0 then 0 else cy in
  let cw := if Qltb iw cw then iw else cw in
  let ch := if Qltb ih ch then ih else ch in
  mkFit r nw0 nh0 ar nw nh cx cy cw ch.

Definition drawImageProp (img : HTMLImageElement) (x y w h : Q) : CanvasOp :=
  let f := fit (inject_Z (img_width img)) (inject_Z (img_height img)) w h in
  DrawImage img (fit_cx f) (fit_cy f) (fit_cw f) (fit_ch f) x y w h.

(** A size for which no quotient or product of [drawImageProp] overflows
    or underflows. *)
Definition moderate (q : Q) : Prop := pow2 (-100) <= q /\ q <= pow2 100.

(** The correction as the specification words it: one pass, for the width
    only. *)
Definition correction_width_only (nw nh w h : Q) : Q :=
  if Qltb nw w then fdiv w nw else 1.

End CoverFit.

(** ** The controller *)

Module App.

Import Binary64 Geometry Dom CoverFit.

(** The mutable fields of [GridApp].  A cell index reaches the acquisition
    methods only through the range test [0 <= index <= 8] of the two
    handlers, so it is a natural number from there on. *)
Record GridApp := mkApp {
  images : list (option HTMLImageElement);
  taintedIndices : gset nat;
  pendingCellIndex : option nat
}.

(** [new Array(9).fill(null)], [new Set()], [null]. *)
Definition initial : GridApp := mkApp (replicate 9 None) ∅ None.

(** [a[i]]: [null] and a missing element both read as no image. *)
Definition array_get {A} (a : list (option A)) (i : nat) : option A :=
  mjoin (a !! i).

(** [a[i] = v]: JavaScript extends the array when [i] is past its end,
    leaving holes in between. *)
Definition array_set {A} (a : list (option A)) (i : nat) (v : A) : list (option A) :=
  if decide (i < length a) then <[i := Some v]> a
  else a ++ replicate (i - length a) None ++ [Some v].

(** What a handler does that the outside can observe. *)
Inductive Effect :=
| Alert (msg : string)
| ConsoleLog (msg : string)
| ConsoleError (msg : string)
| ConsoleErrorException
| Paint (ops : list CanvasOp)
| FileInputClick
| LinkClick (download href : string).

(** How a promise (or a plain call) ends. *)
Inductive Completion (A : Type) :=
| Fulfilled (a : A)
| Rejected
| Pending.
Arguments Fulfilled {A} a.
Arguments Rejected {A}.
Arguments Pending {A}.

Record Run (A : Type) := mkRun {
  outcome : Completion A;
  after : GridApp;
  effects : list Effect
}.
Arguments mkRun {A} _ _ _.
Arguments outcome {A} _.
Arguments after {A} _.
Arguments effects {A} _.

(** A method: fields in, completion, fields and effects out. *)
Definition M (A : Type) : Type := GridApp -> Run A.

#[export] Instance M_ret : MRet M := fun A a s => mkRun (Fulfilled a) s [].

#[export] Instance M_bind : MBind M := fun A B k m s =>
  match m s with
  | mkRun (Fulfilled a) s1 es1 =>
      match k a s1 with
      | mkRun o s2 es2 => mkRun o s2 (es1 ++ es2)
      end
  | mkRun Rejected s1 es1 => mkRun Rejected s1 es1
  | mkRun Pending s1 es1 => mkRun Pending s1 es1
  end.

(** [try { await m; <true> } catch { <false> }]: a rejection is caught, a
    promise that never settles is awaited for ever. *)
Definition attempt (m : M unit) : M bool := fun s =>
  match m s with
  | mkRun (Fulfilled _) s1 es1 => mkRun (Fulfilled true) s1 es1
  | mkRun Rejected s1 es1 => mkRun (Fulfilled false) s1 es1
  | mkRun Pending s1 es1 => mkRun Pending s1 es1
  end.

(** A handler that returns at once. *)
Definition skip : M unit := mret tt.

Definition emit (e : Effect) : M unit := fun s => mkRun (Fulfilled tt) s [e].

Definition setImage (index : nat) (img : HTMLImageElement) : M unit := fun s =>
  mkRun (Fulfilled tt)
    (mkApp (array_set (images s) index img) (taintedIndices s) (pendingCellIndex s)) [].

Definition taintedIndices_delete (index : nat) : M unit := fun s =>
  mkRun (Fulfilled tt)
    (mkApp (images s) (taintedIndices s ∖ {[index]}) (pendingCellIndex s)) [].

Definition taintedIndices_add (index : nat) : M unit := fun s =>
  mkRun (Fulfilled tt)
    (mkApp (images s) ({[index]} ∪ taintedIndices s) (pendingCellIndex s)) [].

Definition set_pendingCellIndex (p : option nat) : M unit := fun s =>
  mkRun (Fulfilled tt) (mkApp (images s) (taintedIndices s) p) [].

(** *** Rendering *)

Local Open Scope Q_scope.

Definition is_null {A} (o : option A) : bool :=
  match o with None => true | Some _ => false end.

(** [col * cellWidth] and [row * cellHeight], for [col = i % 3] and
    [row = Math.floor(i / 3)]. *)
Definition cellX (i : nat) : Q :=
  fmul (inject_Z (Z.of_nat (i mod 3))) cellWidth.
Definition cellY (i : nat) : Q :=
  fmul (inject_Z (Qfloor (fdiv (inject_Z (Z.of_nat i)) 3))) cellHeight.

(** The body of the loop over the cells: the image, then its warning badge. *)
Definition cellOps (s : GridApp) (i : nat) : list CanvasOp :=
  match array_get (images s) i with
  | Some img =>
      let x := cellX i in
      let y := cellY i in
      drawImageProp img x y cellWidth cellHeight ::
      (if decide (i ∈ taintedIndices s) then
         [ FillRect "rgba(255, 0, 0, 0.7)"
             (fsub (fadd x cellWidth) 40) (fadd y 10) 30 30;
           FillText "#fff" "bold 24px Arial" "!"
             (fsub (fadd x cellWidth) 25) (fadd y 25) ]
       else [])
  | None => []
  end.

Definition gridLines : list (Q * Q * Q * Q) :=
  map (fun i : nat => let i := inject_Z (Z.of_nat i) in
         (fmul i cellWidth, 0, fmul i cellWidth, gridHeight)) [1; 2]%nat ++
  map (fun i : nat => let i := inject_Z (Z.of_nat i) in
         (0, fmul i cellHeight, gridWidth, fmul i cellHeight)) [1; 2]%nat.

Definition placeholderOp (i : nat) : CanvasOp :=
  FillText "#666" "30px Inter, sans-serif" "Click/Drop"
    (fadd (cellX i) (fdiv cellWidth 2)) (fadd (cellY i) (fdiv cellHeight 2)).

Definition drawOps (s : GridApp) : list CanvasOp :=
  FillRect "#1a1b1e" 0 0 gridWidth gridHeight ::
  flat_map (cellOps s) (seq 0 9) ++
  [StrokeLines "#ffffff" 4 gridLines] ++
  (if forallb is_null (images s) then map placeholderOp (seq 0 9) else []).

Definition draw : M unit := fun s => mkRun (Fulfilled tt) s [Paint (drawOps s)].

Local Close Scope Q_scope.

(** *** Image acquisition *)

(** [loadImage]: the slot is written in [onload], before the promise
    resolves. *)
Definition loadImage (b : Browser) (src : string) (index : nat) (useCors : bool)
  : M unit := fun s =>
  match loadOutcome b src useCors with
  | Loaded w h =>
      mkRun (Fulfilled tt)
        (mkApp (array_set (images s) index (mkImage src useCors w h))
           (taintedIndices s) (pendingCellIndex s)) []
  | Errored => mkRun Rejected s []
  | Hung => mkRun Pending s []
  end.

Definition loadImageFromFile (b : Browser) (file : File) (index : nat) : M unit :=
  fun s =>
  match readAsDataURL b file with
  | None => mkRun Pending s []
  | Some dataUrl =>
      match loadOutcome b dataUrl false with
      | Loaded w h =>
          (setImage index (mkImage dataUrl false w h);;
           taintedIndices_delete index;;
           draw) s
      | Errored => mkRun Rejected s []
      | Hung => mkRun Pending s []
      end
  end.

Definition proxyUrl (b : Browser) (url : string) : string :=
  "https://images.weserv.nl/?url=" +:+ encodeURIComponent b url.

Definition loadImageFromUrl (b : Browser) (url : string) (index : nat) : M unit :=
  direct ← attempt (loadImage b url index true);
  if direct : bool then taintedIndices_delete index
  else
    emit (ConsoleLog "Direct CORS failed, trying proxy...");;
    proxied ← attempt (loadImage b (proxyUrl b url) index true);
    if proxied : bool then taintedIndices_delete index
    else
      emit (ConsoleLog "Proxy failed, falling back to tainted mode...");;
      fallback ← attempt (loadImage b url index false);
      (if fallback : bool then taintedIndices_add index
       else emit (ConsoleError "All loading attempts failed"));;
      draw.

(** *** Event handlers *)

(** A JavaScript string used as a condition: true unless empty. *)
Definition truthy (str : string) : bool := negb (String.eqb str "").

Definition handleClick (b : Browser) (clientX clientY : Q) : M unit :=
  let index := index (getGridPosition (canvas b) clientX clientY) in
  if index_in_range index then
    set_pendingCellIndex (Some (Z.to_nat index));;
    emit FileInputClick
  else skip.

Definition handleFileSelect (b : Browser) (files : list File) : M unit := fun s =>
  match pendingCellIndex s with
  | None => skip s
  | Some pending =>
      ((match files with
        | file :: _ => loadImageFromFile b file pending
        | [] => skip
        end);;
       set_pendingCellIndex None) s
  end.

(** The source a drop without files resolves to (the [else] branch of
    [handleDrop] up to the test of [src]); empty when there is none. *)
Definition dropSource (b : Browser) (dt : DataTransfer) : string :=
  let html := dt_html dt in
  let uri := dt_uri_list dt in
  let text := dt_plain dt in
  let src := "" in
  let src :=
    if truthy html then
      match querySelectorImgSrc b html with
      | Some imgSrc => imgSrc
      | None => src
      end
    else src in
  let src := if negb (truthy src) && truthy uri then uri else src in
  let src :=
    if negb (truthy src) && truthy text &&
       (String.prefix "http" text || String.prefix "data:image" text)
    then text else src in
  src.

Definition handleDrop (b : Browser) (dataTransfer : option DataTransfer)
    (clientX clientY : Q) : M unit :=
  match dataTransfer with
  | None => skip
  | Some dt =>
      let index := index (getGridPosition (canvas b) clientX clientY) in
      if index_out_of_range index then skip
      else
        match dt_files dt with
        | file :: _ =>
            if String.prefix "image/" (file_type file)
            then loadImageFromFile b file (Z.to_nat index)
            else skip
        | [] =>
            let src := dropSource b dt in
            if truthy src then loadImageFromUrl b src (Z.to_nat index)
            else skip
        end
  end.

(** The candidate an HTML fragment yields: the source of its first image
    element, empty when the fragment is empty or has no image. *)
Definition htmlCandidate (b : Browser) (dt : DataTransfer) : string :=
  if truthy (dt_html dt) then
    match querySelectorImgSrc b (dt_html dt) with
    | Some imgSrc => imgSrc
    | None => ""
    end
  else "".

(** Whether the plain text is accepted as a source. *)
Definition plainAccepted (dt : DataTransfer) : bool :=
  truthy (dt_plain dt) &&
  (String.prefix "http" (dt_plain dt) || String.prefix "data:image" (dt_plain dt)).

(** *** Export *)

Definition newline : string := String (Ascii.ascii_of_nat 10) "".

Definition taintNotice : string :=
  "Cannot download: Images marked with '!' are protected by security policies (CORS). "
  +:+ newline +:+ "      " +:+ newline +:+
  "Please save these images to your computer first, then drag the file into the square.".

Definition exportFailedNotice : string :=
  "Cannot download: One or more images may be protected by CORS policies.".

Definition downloadImage (b : Browser) : M unit := fun s =>
  if decide (0 < size (taintedIndices s)) then emit (Alert taintNotice) s
  else
    match toDataURL b with
    | Some href => emit (LinkClick "3x3-grid.png" href) s
    | None => (emit (Alert exportFailedNotice);; emit ConsoleErrorException) s
    end.

(** *** Sessions *)

(** The events the controller listens to, each with the browser's answers
    while it is served. *)
Inductive Event :=
| ClickCanvas (clientX clientY : Q)
| ChangeFileInput (files : list File)
| DropCanvas (dataTransfer : option DataTransfer) (clientX clientY : Q)
| ClickDownload.

Definition handle (b : Browser) (e : Event) : M unit :=
  match e with
  | ClickCanvas x y => handleClick b x y
  | ChangeFileInput files => handleFileSelect b files
  | DropCanvas dt x y => handleDrop b dt x y
  | ClickDownload => downloadImage b
  end.

(** The fields after a sequence of events served one after the other,
    starting from the constructor (which only draws). *)
Fixpoint session (evs : list (Browser * Event)) (s : GridApp) : GridApp :=
  match evs with
  | [] => s
  | (b, e) :: evs => session evs (after (handle b e s))
  end.

Definition reachable (s : GridApp) : Prop :=
  exists evs,
    Forall (fun be => displayed (canvas (fst be))) evs /\
    s = session evs (after (draw initial)).

(** The invariant of the taint set: a marked cell holds an image. *)
Definition taint_inv (s : GridApp) : Prop :=
  forall i, i ∈ taintedIndices s -> is_Some (array_get (images s) i).

Definition populated (s : GridApp) : Prop :=
  exists i, is_Some (array_get (images s) i).

(** The downloads an effect list triggers. *)
Definition downloads (es : list Effect) : list (string * string) :=
  flat_map (fun e => match e with LinkClick d h => [(d, h)] | _ => [] end) es.

Definition alerts (es : list Effect) : list string :=
  flat_map (fun e => match e with Alert m => [m] | _ => [] end) es.

(** *** Acquisitions and the path they take *)

(** What an acquisition starts from. *)
Inductive Source :=
| FromFile (file : File)
| FromUrl (url : string).

Definition acquire (b : Browser) (src : Source) (index : nat) : M unit :=
  match src with
  | FromFile file => loadImageFromFile b file index
  | FromUrl url => loadImageFromUrl b url index
  end.

(** How the browser lets an acquisition end: which request is the first to
    load (the local decode; stage 1, direct with CORS; stage 2, through the
    proxy with CORS; stage 3, direct without CORS), or that every request
    errors, or that one of them never answers.  This is read off the
    browser's answers alone. *)
Inductive Path :=
| LocalFile
| Direct
| Proxied
| Fallback
| Failed
| Stuck.

Definition path_taken (b : Browser) (src : Source) : Path :=
  match src with
  | FromFile file =>
      match readAsDataURL b file with
      | None => Stuck
      | Some dataUrl =>
          match loadOutcome b dataUrl false with
          | Loaded _ _ => LocalFile
          | Errored => Failed
          | Hung => Stuck
          end
      end
  | FromUrl url =>
      match loadOutcome b url true with
      | Loaded _ _ => Direct
      | Hung => Stuck
      | Errored =>
          match loadOutcome b (proxyUrl b url) true with
          | Loaded _ _ => Proxied
          | Hung => Stuck
          | Errored =>
              match loadOutcome b url false with
              | Loaded _ _ => Fallback
              | Errored => Failed
              | Hung => Stuck
              end
          end
      end
  end.

Definition succeeded (p : Path) : bool :=
  match p with
  | LocalFile | Direct | Proxied | Fallback => true
  | Failed | Stuck => false
  end.

(** The writes to the fields that run without interruption: nothing, an
    image stored with its mark cleared, an image stored with its mark set,
    and a change of the pending selection.  Every handler, and every
    interleaving of asynchronous acquisitions, is a sequence of these. *)
Inductive commit (s : GridApp) : GridApp -> Prop :=
| commit_clean (i : nat) (img : HTMLImageElement) :
    commit s (mkApp (array_set (images s) i img) (taintedIndices s ∖ {[i]})
                (pendingCellIndex s))
| commit_tainted (i : nat) (img : HTMLImageElement) :
    commit s (mkApp (array_set (images s) i img) ({[i]} ∪ taintedIndices s)
                (pendingCellIndex s))
| commit_pending (p : option nat) :
    commit s (mkApp (images s) (taintedIndices s) p).

Inductive commits (s : GridApp) : GridApp -> Prop :=
| commits_refl : commits s s
| commits_step (s1 s2 : GridApp) : commits s s1 -> commit s1 s2 -> commits s s2.

(** *** Test data *)

Definition png : File := mkFile "image/png" "cat.png".
Definition txt : File := mkFile "text/plain" "notes.txt".

(** A browser in which only the plain (no-CORS) request of a URL succeeds. *)
Definition fallbackOnly : Browser :=
  mkBrowser natural_canvas (fun f => Some ("data:" +:+ file_name f))
    (fun src cors => if cors then Errored else Loaded 100 200)
    (fun u => u)
    (fun html => if String.prefix "<img src=A>" html then Some "A" else None)
    (Some "data:image/png;base64,").

(** The same with the canvas refusing to serialise. *)
Definition unclean (b : Browser) : Browser :=
  mkBrowser (canvas b) (readAsDataURL b) (loadOutcome b) (encodeURIComponent b)
    (querySelectorImgSrc b) None.

(** A browser in which no image loads. *)
Definition offline : Browser :=
  mkBrowser natural_canvas (fun f => Some ("data:" +:+ file_name f))
    (fun _ _ => Errored) (fun u => u) (fun _ => None) (Some "data:image/png;base64,").

(** A drop of a URL on cell 3 (second row, first column). *)
Definition dropUrl : Event :=
  DropCanvas (Some (mkDataTransfer [] "" "http://x/y.png" "")) 100 500.

(** A drop of a local image on the same cell. *)
Definition dropPng : Event :=
  DropCanvas (Some (mkDataTransfer [png] "" "" "")) 100 500.

(** Cell 3 filled through stage 3, then overwritten with a local file. *)
Definition relit : GridApp :=
  session [(fallbackOnly, dropUrl); (fallbackOnly, dropPng)] (after (draw initial)).

(** A drop that carries an image element, a URI list and plain text. *)
Definition richDrop : DataTransfer :=
  mkDataTransfer [] "<img src=A>" "B" "http://c".

(** The same payloads next to a text file. *)
Definition textFileDrop : DataTransfer :=
  mkDataTransfer [txt] "<img src=A>" "B" "http://c".

(** *** What a render shows *)

(** The renders an effect list contains. *)
Definition paints (es : list Effect) : list (list CanvasOp) :=
  flat_map (fun e => match e with Paint ops => [ops] | _ => [] end) es.

(** The kinds of canvas call [draw] issues for a cell. *)
Definition is_image (op : CanvasOp) : bool :=
  match op with DrawImage _ _ _ _ _ _ _ _ _ => true | _ => false end.

Definition is_badge (op : CanvasOp) : bool :=
  match op with FillText _ _ text _ _ => String.eqb text "!" | _ => false end.

Definition is_placeholder (op : CanvasOp) : bool :=
  match op with FillText _ _ text _ _ => String.eqb text "Click/Drop" | _ => false end.

(** Cell [i] holds an image; cell [i] holds an image and is marked. *)
Definition has_image (s : GridApp) (i : nat) : bool :=
  negb (is_null (array_get (images s) i)).

Definition has_badge (s : GridApp) (i : nat) : bool :=
  has_image s i && bool_decide (i ∈ taintedIndices s).

(** *** Shapes of the fields *)

(** The grid has its nine slots, and the pending selection and the marks
    are indices of cells. *)
Definition well_formed (s : GridApp) : Prop :=
  length (images s) = 9 /\
  (forall p, pendingCellIndex s = Some p -> p < 9) /\
  (forall i, i ∈ taintedIndices s -> i < 9).

(** Two states with the same images and marks (the pending selection may
    differ). *)
Definition same_cells (s s' : GridApp) : Prop :=
  images s = images s' /\ taintedIndices s = taintedIndices s'.

(** A marked cell holds an image that was requested without [crossOrigin]. *)
Definition no_cors_inv (s : GridApp) : Prop :=
  forall i, i ∈ taintedIndices s ->
    exists img, array_get (images s) i = Some img /\ img_crossOrigin img = false.

(** *** More test data *)

(** A browser in which every request loads, with CORS approval. *)
Definition online : Browser :=
  mkBrowser natural_canvas (fun f => Some ("data:" +:+ file_name f))
    (fun _ _ => Loaded 640 480) (fun u => u) (fun _ => None)
    (Some "data:image/png;base64,").

(** A browser with its canvas displayed at 873 x 1164. *)
Definition shrunk (b : Browser) : Browser :=
  mkBrowser shrunk_canvas (readAsDataURL b) (loadOutcome b) (encodeURIComponent b)
    (querySelectorImgSrc b) (toDataURL b).

(** The grid after a stage-3 load into cell 3. *)
Definition lit : GridApp :=
  session [(fallbackOnly, dropUrl)] (after (draw initial)).

End App.

(** * Properties *)

Import Binary64 Geometry Dom CoverFit App.

(** ** Binary64 rounding *)

Section Rounding.

Local Open Scope Q_scope.

Lemma two_nonzero : ~ 2 == 0.
Proof. discriminate. Qed.

Lemma pow2_pos (k : Z) : 0 < pow2 k.
Proof. apply Qpower_0_lt. reflexivity. Qed.

Lemma pow2_add (a b : Z) : pow2 (a + b) == pow2 a * pow2 b.
Proof. apply Qpower_plus, two_nonzero. Qed.

Lemma pow2_sub (a b : Z) : pow2 (a - b) == pow2 a / pow2 b.
Proof. apply Qpower_minus, two_nonzero. Qed.

Lemma pow2_le (a b : Z) : (a <= b)%Z -> pow2 a <= pow2 b.
Proof. intros H. apply Qpower_le_compat_l; [exact H | discriminate]. Qed.


Lemma pow2_lt_inv (a b : Z) : pow2 a < pow2 b -> (a < b)%Z.
Proof. intros H. eapply Qpower_lt_compat_l_inv; [exact H | reflexivity]. Qed.

Lemma pow2_Z (k : Z) : (0 <= k)%Z -> pow2 k == inject_Z (2 ^ k).
Proof. intros H. unfold pow2. now rewrite Zpower_Qpower. Qed.

Lemma pow2_nonzero (k : Z) : ~ pow2 k == 0.
Proof. apply Qpower_not_0, two_nonzero. Qed.

(** *** The binade of a positive rational *)
Lemma ilog2_spec (q : Q) : 0 < q -> pow2 (ilog2 q) <= q /\ q < pow2 (ilog2 q + 1).
Proof.
  intros Hq. destruct q as [n d]. unfold Qlt in Hq. cbn in Hq.
  assert (Hn : (0 < n)%Z) by lia.
  pose proof (Z.log2_spec n Hn) as [Hn1 Hn2].
  pose proof (Z.log2_spec (Zpos d) (Pos2Z.is_pos d)) as [Hd1 Hd2].
  pose proof (Z.log2_nonneg n) as Ha. pose proof (Z.log2_nonneg (Zpos d)) as Hb.
  remember (Z.log2 n) as a eqn:Ea. remember (Z.log2 (Zpos d)) as b eqn:Eb.
  rewrite <- Z.add_1_r in Hn2, Hd2.
  assert (Eq : n # d == inject_Z n / inject_Z (Zpos d)) by apply Qmake_Qdiv.
  assert (Pd : 0 < inject_Z (Zpos d)) by reflexivity.
  assert (Ln : pow2 a <= inject_Z n)
    by (rewrite pow2_Z by lia; now rewrite <- Zle_Qle).
  assert (Un : inject_Z n < pow2 (a + 1))
    by (rewrite pow2_Z by lia; now rewrite <- Zlt_Qlt).
  assert (Ld : pow2 b <= inject_Z (Zpos d))
    by (rewrite pow2_Z by lia; now rewrite <- Zle_Qle).
  assert (Ud : inject_Z (Zpos d) < pow2 (b + 1))
    by (rewrite pow2_Z by lia; now rewrite <- Zlt_Qlt).
  unfold ilog2. cbn [Qnum Qden]. rewrite <- Ea, <- Eb.
  destruct (Qle_bool (pow2 (a - b)) (n # d)) eqn:Hb0.
  - apply Qle_bool_iff in Hb0. split; [exact Hb0 |].
    rewrite Eq. apply Qlt_shift_div_r; [exact Pd |].
    eapply Qlt_le_trans; [exact Un |].
    apply Qle_trans with (pow2 (a - b + 1) * pow2 b).
    + rewrite <- pow2_add. replace (a - b + 1 + b)%Z with (a + 1)%Z by lia.
      apply Qle_refl.
    + apply Qmult_le_l; [apply pow2_pos | exact Ld].
  - assert (Hlt : n # d < pow2 (a - b)).
    { apply Qnot_le_lt. intros H. apply Qle_bool_iff in H. congruence. }
    split.
    + rewrite Eq. apply Qle_shift_div_l; [exact Pd |].
      apply Qle_trans with (pow2 (a - b - 1) * pow2 (b + 1)).
      * apply Qmult_le_l; [apply pow2_pos | now apply Qlt_le_weak].
      * rewrite <- pow2_add. replace (a - b - 1 + (b + 1))%Z with a by lia. exact Ln.
    + replace (a - b - 1 + 1)%Z with (a - b)%Z by lia. exact Hlt.
Qed.

Lemma ilog2_unique (q : Q) (L : Z) :
  0 < q -> pow2 L <= q -> q < pow2 (L + 1) -> ilog2 q = L.
Proof.
  intros Hq H1 H2. destruct (ilog2_spec q Hq) as [S1 S2].
  assert (ilog2 q < L + 1)%Z by (apply pow2_lt_inv; eapply Qle_lt_trans; eassumption).
  assert (L < ilog2 q + 1)%Z by (apply pow2_lt_inv; eapply Qle_lt_trans; eassumption).
  lia.
Qed.

Lemma ilog2_comp (p q : Q) : 0 < p -> p == q -> ilog2 p = ilog2 q.
Proof.
  intros Hp E. assert (Hq : 0 < q) by now rewrite <- E.
  destruct (ilog2_spec q Hq) as [S1 S2].
  apply ilog2_unique; [exact Hp | now rewrite E | now rewrite E].
Qed.

Lemma ilog2_mono (p q : Q) : 0 < p -> p <= q -> (ilog2 p <= ilog2 q)%Z.
Proof.
  intros Hp Hpq. assert (Hq : 0 < q) by (eapply Qlt_le_trans; eassumption).
  destruct (ilog2_spec p Hp) as [P1 _]. destruct (ilog2_spec q Hq) as [_ Q2].
  assert (ilog2 p < ilog2 q + 1)%Z; [| lia].
  apply pow2_lt_inv. eapply Qle_lt_trans; [exact P1 |].
  eapply Qle_lt_trans; eassumption.
Qed.

(** *** Rounding to the nearest integer *)
Lemma rne_bounds (q : Q) : (Qfloor q <= rne q <= Qfloor q + 1)%Z.
Proof.
  unfold rne. destruct (Qcompare _ _); [destruct (Z.even _) | |]; lia.
Qed.

Lemma rne_comp (p q : Q) : p == q -> rne p = rne q.
Proof.
  intros E. unfold rne. rewrite (Qfloor_comp _ _ E).
  assert (E' : p - inject_Z (Qfloor q) == q - inject_Z (Qfloor q)) by now rewrite E.
  now rewrite (Qcompare_comp _ _ E' (1 # 2) (1 # 2) (Qeq_refl _)).
Qed.

Lemma rne_Z (n : Z) : rne (inject_Z n) = n.
Proof.
  unfold rne. rewrite Qfloor_Z.
  destruct (Qcompare (inject_Z n - inject_Z n) (1 # 2)) eqn:C; [| reflexivity |].
  - apply Qeq_alt in C. lra.
  - apply Qgt_alt in C. lra.
Qed.

Lemma rne_up_half (q : Q) : rne q = (Qfloor q + 1)%Z -> inject_Z (Qfloor q) + (1 # 2) <= q.
Proof.
  unfold rne. destruct (Qcompare (q - inject_Z (Qfloor q)) (1 # 2)) eqn:C.
  - intros _. apply Qeq_alt in C. lra.
  - lia.
  - intros _. apply Qgt_alt in C. lra.
Qed.

Lemma rne_down_half (q : Q) : rne q = Qfloor q -> q <= inject_Z (Qfloor q) + (1 # 2).
Proof.
  unfold rne. destruct (Qcompare (q - inject_Z (Qfloor q)) (1 # 2)) eqn:C.
  - intros _. apply Qeq_alt in C. lra.
  - intros _. apply Qlt_alt in C. lra.
  - lia.
Qed.

Lemma rne_mono (p q : Q) : p <= q -> (rne p <= rne q)%Z.
Proof.
  intros Hpq. pose proof (Qfloor_resp_le _ _ Hpq) as Hf.
  pose proof (rne_bounds p) as Bp. pose proof (rne_bounds q) as Bq.
  destruct (Z.eq_dec (Qfloor p) (Qfloor q)) as [E | NE]; [| lia].
  destruct (Z.eq_dec (rne p) (Qfloor p + 1)%Z) as [Up | Dp]; [| lia].
  destruct (Z.eq_dec (rne q) (Qfloor q)) as [Dq | Uq]; [| lia].
  exfalso. pose proof (rne_up_half p Up) as H1. pose proof (rne_down_half q Dq) as H2.
  rewrite E in H1.
  assert (Epq : p == q) by lra.
  rewrite (rne_comp _ _ Epq) in Up. lia.
Qed.

Lemma rne_le (q : Q) (n : Z) : q <= inject_Z n -> (rne q <= n)%Z.
Proof. intros H. rewrite <- (rne_Z n). now apply rne_mono. Qed.

Lemma rne_ge (q : Q) (n : Z) : inject_Z n <= q -> (n <= rne q)%Z.
Proof. intros H. rewrite <- (rne_Z n). now apply rne_mono. Qed.

(** *** Rounding a positive rational *)
Lemma ulp_exponent_min (q : Q) : (-1074 <= ulp_exponent q)%Z.
Proof. unfold ulp_exponent. lia. Qed.

Lemma scaled_bounds (q : Q) :
  0 < q -> q / pow2 (ulp_exponent q) < pow2 53 /\
  ((-1074 < ulp_exponent q)%Z -> pow2 52 <= q / pow2 (ulp_exponent q)).
Proof.
  intros Hq. destruct (ilog2_spec q Hq) as [S1 S2]. split.
  - apply Qlt_shift_div_r; [apply pow2_pos |].
    eapply Qlt_le_trans; [exact S2 |]. rewrite <- pow2_add.
    apply pow2_le. unfold ulp_exponent. lia.
  - intros Hn. apply Qle_shift_div_l; [apply pow2_pos |].
    rewrite <- pow2_add. eapply Qle_trans; [| exact S1].
    apply pow2_le. unfold ulp_exponent in *. lia.
Qed.

Lemma round_positive_nonneg (q : Q) : 0 < q -> 0 <= round_positive q.
Proof.
  intros Hq. unfold round_positive. cbv zeta.
  apply Qmult_le_0_compat; [| apply Qlt_le_weak, pow2_pos].
  change 0 with (inject_Z 0). rewrite <- Zle_Qle. apply rne_ge.
  apply Qle_shift_div_l; [apply pow2_pos |]. rewrite Qmult_0_l. now apply Qlt_le_weak.
Qed.

Lemma round_positive_comp (p q : Q) : 0 < p -> p == q -> round_positive p = round_positive q.
Proof.
  intros Hp E. unfold round_positive, ulp_exponent. cbv zeta.
  rewrite (ilog2_comp p q Hp E).
  now rewrite (rne_comp (p / pow2 (Z.max (ilog2 q - 52) (-1074)))
                 (q / pow2 (Z.max (ilog2 q - 52) (-1074)))) by now rewrite E.
Qed.

Lemma round_positive_mono (p q : Q) :
  0 < p -> p <= q -> round_positive p <= round_positive q.
Proof.
  intros Hp Hpq. assert (Hq : 0 < q) by (eapply Qlt_le_trans; eassumption).
  pose proof (ilog2_mono p q Hp Hpq) as Hl.
  assert (He : (ulp_exponent p <= ulp_exponent q)%Z) by (unfold ulp_exponent; lia).
  unfold round_positive. cbv zeta.
  destruct (Z.eq_dec (ulp_exponent p) (ulp_exponent q)) as [E | NE].
  - rewrite E. apply Qmult_le_compat_r; [| apply Qlt_le_weak, pow2_pos].
    rewrite <- Zle_Qle. apply rne_mono.
    apply Qmult_le_compat_r; [exact Hpq |].
    apply Qlt_le_weak, Qinv_lt_0_compat, pow2_pos.
  - destruct (scaled_bounds p Hp) as [Bp _]. destruct (scaled_bounds q Hq) as [_ Bq].
    pose proof (ulp_exponent_min p) as Mp.
    specialize (Bq ltac:(lia)).
    apply Qle_trans with (pow2 53 * pow2 (ulp_exponent p)).
    + apply Qmult_le_compat_r; [| apply Qlt_le_weak, pow2_pos].
      rewrite (pow2_Z 53) by lia. rewrite <- Zle_Qle. apply rne_le.
      rewrite <- (pow2_Z 53) by lia. now apply Qlt_le_weak.
    + apply Qle_trans with (pow2 52 * pow2 (ulp_exponent q)).
      * rewrite <- !pow2_add. apply pow2_le. lia.
      * apply Qmult_le_compat_r; [| apply Qlt_le_weak, pow2_pos].
        rewrite (pow2_Z 52) by lia. rewrite <- Zle_Qle. apply rne_ge.
        rewrite <- (pow2_Z 52) by lia. exact Bq.
Qed.

(** *** Rounding is well defined, sign preserving and monotone *)
Lemma round64_comp (p q : Q) : p == q -> round64 p = round64 q.
Proof.
  intros E. unfold round64. rewrite (Qcompare_comp _ _ E 0 0 (Qeq_refl 0)).
  destruct (Qcompare q 0) eqn:C; [reflexivity | |].
  - apply Qlt_alt in C. f_equal. apply round_positive_comp; [rewrite E; lra | now rewrite E].
  - apply Qgt_alt in C. apply round_positive_comp; [now rewrite E | exact E].
Qed.

Lemma round64_nonneg (q : Q) : 0 <= q -> 0 <= round64 q.
Proof.
  intros Hq. unfold round64. destruct (Qcompare q 0) eqn:C.
  - apply Qle_refl.
  - apply Qlt_alt in C. lra.
  - apply Qgt_alt in C. now apply round_positive_nonneg.
Qed.

Lemma round64_nonpos (q : Q) : q <= 0 -> round64 q <= 0.
Proof.
  intros Hq. unfold round64. destruct (Qcompare q 0) eqn:C.
  - apply Qle_refl.
  - apply Qlt_alt in C. pose proof (round_positive_nonneg (- q) ltac:(lra)). lra.
  - apply Qgt_alt in C. lra.
Qed.

Lemma round64_mono (p q : Q) : p <= q -> round64 p <= round64 q.
Proof.
  intros Hpq. destruct (Qlt_le_dec 0 p) as [Pp | Np].
  - assert (Pq : 0 < q) by lra. unfold round64.
    destruct (Qcompare p 0) eqn:Cp;
      [apply Qeq_alt in Cp; lra | apply Qlt_alt in Cp; lra |].
    destruct (Qcompare q 0) eqn:Cq;
      [apply Qeq_alt in Cq; lra | apply Qlt_alt in Cq; lra |].
    now apply round_positive_mono.
  - destruct (Qlt_le_dec q 0) as [Nq | Pq].
    + assert (Np' : p < 0) by lra. unfold round64.
      destruct (Qcompare p 0) eqn:Cp;
        [apply Qeq_alt in Cp; lra | | apply Qgt_alt in Cp; lra].
      destruct (Qcompare q 0) eqn:Cq;
        [apply Qeq_alt in Cq; lra | | apply Qgt_alt in Cq; lra].
      apply Qopp_le_compat. apply round_positive_mono; lra.
    + apply Qle_trans with 0; [now apply round64_nonpos | now apply round64_nonneg].
Qed.

(** *** Representable numbers are fixed points, and rounding reaches them *)
Lemma round_positive_exact (m e : Z) :
  (0 < m < 2 ^ 53)%Z -> (-1074 <= e)%Z ->
  round_positive (inject_Z m * pow2 e) == inject_Z m * pow2 e.
Proof.
  intros Hm He. set (q := inject_Z m * pow2 e).
  assert (Hq : 0 < q).
  { apply Qmult_lt_0_compat; [| apply pow2_pos].
    change 0 with (inject_Z 0). rewrite <- Zlt_Qlt. lia. }
  destruct (ilog2_spec q Hq) as [S1 _].
  assert (Hup : q < pow2 (53 + e)).
  { rewrite pow2_add. unfold q. apply Qmult_lt_compat_r; [apply pow2_pos |].
    rewrite (pow2_Z 53) by lia. rewrite <- Zlt_Qlt. lia. }
  assert (HL : (ilog2 q < 53 + e)%Z)
    by (apply pow2_lt_inv; eapply Qle_lt_trans; eassumption).
  unfold round_positive. cbv zeta.
  set (e' := ulp_exponent q).
  assert (He' : (e' <= e)%Z) by (unfold e', ulp_exponent; lia).
  assert (Esplit : pow2 e == inject_Z (2 ^ (e - e')) * pow2 e').
  { rewrite <- pow2_Z by lia. rewrite <- pow2_add. now replace (e - e' + e')%Z with e by lia. }
  assert (Escaled : q / pow2 e' == inject_Z (m * 2 ^ (e - e'))).
  { unfold q. rewrite Esplit, inject_Z_mult. field. apply pow2_nonzero. }
  rewrite (rne_comp _ _ Escaled), rne_Z. unfold q.
  rewrite Esplit, inject_Z_mult. ring.
Qed.

Lemma round64_exact (q : Q) : representable q -> round64 q == q.
Proof.
  intros (m & e & Hm & He & E). rewrite (round64_comp _ _ E), E.
  unfold round64.
  destruct (Qcompare (inject_Z m * pow2 e) 0) eqn:C.
  - apply Qeq_alt in C. now rewrite C.
  - apply Qlt_alt in C.
    assert (Hneg : (m < 0)%Z).
    { destruct (Z_lt_le_dec m 0) as [H | H]; [exact H | exfalso].
      assert (0 <= inject_Z m * pow2 e); [| lra].
      apply Qmult_le_0_compat; [| apply Qlt_le_weak, pow2_pos].
      change 0 with (inject_Z 0). now rewrite <- Zle_Qle. }
    assert (Eneg : - (inject_Z m * pow2 e) == inject_Z (- m) * pow2 e)
      by (rewrite inject_Z_opp; ring).
    assert (Hpos : 0 < - (inject_Z m * pow2 e)).
    { revert C. generalize (inject_Z m * pow2 e). intros z C. lra. }
    rewrite (round_positive_comp _ _ Hpos Eneg).
    rewrite round_positive_exact by lia. rewrite inject_Z_opp. ring.
  - apply Qgt_alt in C.
    assert (Hpos : (0 < m)%Z).
    { destruct (Z_lt_le_dec 0 m) as [H | H]; [exact H | exfalso].
      assert (inject_Z m * pow2 e <= 0); [| lra].
      rewrite <- (Qmult_0_l (pow2 e)).
      apply Qmult_le_compat_r; [| apply Qlt_le_weak, pow2_pos].
      change 0 with (inject_Z 0). now rewrite <- Zle_Qle. }
    apply round_positive_exact; lia.
Qed.

Lemma round_positive_representable (q : Q) : 0 < q -> representable (round_positive q).
Proof.
  intros Hq. unfold round_positive. cbv zeta.
  destruct (scaled_bounds q Hq) as [Bq _].
  pose proof (ulp_exponent_min q) as Hmin.
  set (e := ulp_exponent q) in *. set (M := rne (q / pow2 e)).
  assert (HM0 : (0 <= M)%Z).
  { apply rne_ge. apply Qle_shift_div_l; [apply pow2_pos |].
    rewrite Qmult_0_l. now apply Qlt_le_weak. }
  assert (HM1 : (M <= 2 ^ 53)%Z).
  { apply rne_le. rewrite <- pow2_Z by lia. now apply Qlt_le_weak. }
  destruct (Z.eq_dec M (2 ^ 53)%Z) as [E | NE].
  - exists (2 ^ 52)%Z, (e + 1)%Z. split; [lia |]. split; [lia |].
    fold M. rewrite E, pow2_add. rewrite <- !pow2_Z by lia.
    rewrite <- !pow2_add. now replace (53 + e)%Z with (52 + (e + 1))%Z by lia.
  - exists M, e. split; [lia |]. split; [lia | reflexivity].
Qed.

Lemma round64_representable (q : Q) : representable (round64 q).
Proof.
  unfold round64. destruct (Qcompare q 0) eqn:C.
  - exists 0%Z, 0%Z. split; [reflexivity |]. split; [lia | reflexivity].
  - apply Qlt_alt in C.
    destruct (round_positive_representable (- q) ltac:(lra)) as (m & e & Hm & He & E).
    exists (- m)%Z, e. split; [lia |]. split; [exact He |].
    rewrite E, inject_Z_opp. ring.
  - apply Qgt_alt in C. now apply round_positive_representable.
Qed.

Lemma representable_Z (n : Z) : (Z.abs n < 2 ^ 53)%Z -> representable (inject_Z n).
Proof.
  intros Hn. exists n, 0%Z. split; [exact Hn |]. split; [lia |].
  change (pow2 0) with 1. ring.
Qed.

Lemma representable_double (q : Q) : representable q -> representable (2 * q).
Proof.
  intros (m & e & Hm & He & E). exists m, (e + 1)%Z.
  split; [exact Hm |]. split; [lia |].
  rewrite E, pow2_add. change (pow2 1) with 2. ring.
Qed.

(** A representable number at or above [2^j] is a multiple of [2^(j-52)]. *)
Lemma representable_grid (v : Q) (j : Z) :
  representable v -> pow2 j <= v ->
  exists n : Z, v == inject_Z n * pow2 (j - 52).
Proof.
  intros (m & e & Hm & He & E) Hj.
  assert (Hup : v < pow2 (53 + e)).
  { rewrite E, pow2_add. apply Qmult_lt_compat_r; [apply pow2_pos |].
    rewrite (pow2_Z 53) by lia. rewrite <- Zlt_Qlt. lia. }
  assert (Hje : (j < 53 + e)%Z)
    by (apply pow2_lt_inv; eapply Qle_lt_trans; eassumption).
  exists (m * 2 ^ (e - (j - 52)))%Z.
  rewrite E, inject_Z_mult, <- pow2_Z by lia.
  rewrite <- Qmult_assoc, <- pow2_add.
  now replace (e - (j - 52) + (j - 52))%Z with e by lia.
Qed.

(** Below a boundary that lies on the grid of its binade, a representable
    number is at most one grid step below it. *)
Lemma below_boundary (v B : Q) (j n : Z) :
  representable v -> pow2 j < B -> B == inject_Z n * pow2 (j - 52) ->
  v < B -> v <= B - pow2 (j - 52).
Proof.
  intros Hv HjB EB HvB.
  pose proof (pow2_pos (j - 52)) as Pu.
  destruct (Qlt_le_dec v (pow2 j)) as [Hlow | Hhigh].
  - assert (Ej : pow2 j == inject_Z (2 ^ 52) * pow2 (j - 52)).
    { rewrite <- pow2_Z by lia. rewrite <- pow2_add.
      now replace (52 + (j - 52))%Z with j by lia. }
    assert (Hn : (2 ^ 52 < n)%Z).
    { rewrite Zlt_Qlt. apply (Qmult_lt_r _ _ (pow2 (j - 52)) Pu).
      now rewrite <- Ej, <- EB. }
    assert (Hn' : inject_Z (2 ^ 52) + 1 <= inject_Z n).
    { change 1 with (inject_Z 1). rewrite <- inject_Z_plus, <- Zle_Qle. lia. }
    apply Qle_trans with (pow2 j); [now apply Qlt_le_weak |].
    rewrite EB, Ej. nra.
  - destruct (representable_grid v j Hv Hhigh) as [k Ek].
    assert (Hk : (k < n)%Z).
    { rewrite Zlt_Qlt. apply (Qmult_lt_r _ _ (pow2 (j - 52)) Pu).
      now rewrite <- Ek, <- EB. }
    assert (Hk' : inject_Z k + 1 <= inject_Z n).
    { change 1 with (inject_Z 1). rewrite <- inject_Z_plus, <- Zle_Qle. lia. }
    rewrite EB, Ek. nra.
Qed.

(** On the sample operands, the four operations agree with those of the
    Standard Library's [SpecFloat] at precision 53 and maximal exponent
    1024. *)
Lemma operations_agree_with_SpecFloat :
  forallb (fun p => agree (fst p) (snd p)) samples = true.
Proof. vm_compute. reflexivity. Qed.

End Rounding.

(** ** Grid addressing *)

Section GridAddressing.

Local Open Scope Q_scope.

Lemma cellWidth_pos : 0 < cellWidth.
Proof. reflexivity. Qed.

Lemma cellHeight_pos : 0 < cellHeight.
Proof. reflexivity. Qed.

(** An integer below [2^53] is a binary64 number. *)
Lemma round64_Z (n : Z) : (Z.abs n < 2 ^ 53)%Z -> round64 (inject_Z n) == inject_Z n.
Proof. intros Hn. now apply round64_exact, representable_Z. Qed.

(** The rounded quotient of a coordinate at or past [k] cells is at least
    [k]. *)
Lemma fdiv_floor_ge (x c : Q) (k : Z) :
  0 < c -> (Z.abs k < 2 ^ 53)%Z -> inject_Z k * c <= x ->
  (k <= Qfloor (fdiv x c))%Z.
Proof.
  intros Hc Hk Hx. rewrite <- (Qfloor_Z k). apply Qfloor_resp_le.
  rewrite <- (round64_Z k Hk). apply round64_mono.
  now apply Qle_shift_div_l.
Qed.

(** The rounded quotient of a binary64 coordinate below a cell boundary [B]
    stays below the boundary's cell number [k]: the largest binary64 number
    below [B] is one grid step [2^(j-52)] under it, and its quotient still
    rounds below [k]. *)
Lemma fdiv_floor_lt (x c B : Q) (j n k : Z) :
  representable x -> 0 < c ->
  pow2 j < B -> B == inject_Z n * pow2 (j - 52) ->
  round64 ((B - pow2 (j - 52)) / c) < inject_Z k ->
  x < B -> (Qfloor (fdiv x c) < k)%Z.
Proof.
  intros Hx Hc Hj HB Hk HxB.
  pose proof (below_boundary x B j n Hx Hj HB HxB) as Hle.
  rewrite Zlt_Qlt. eapply Qle_lt_trans; [apply Qfloor_le |].
  eapply Qle_lt_trans; [| exact Hk].
  apply round64_mono. apply Qmult_le_compat_r; [exact Hle |].
  now apply Qlt_le_weak, Qinv_lt_0_compat.
Qed.

(** The three column boundaries and the three row boundaries. *)
Lemma below_column (x : Q) (k : Z) :
  representable x -> (1 <= k <= 3)%Z -> x < inject_Z k * cellWidth ->
  (Qfloor (fdiv x cellWidth) < k)%Z.
Proof.
  intros Hx Hk Hlt.
  assert (Ek : k = 1%Z \/ k = 2%Z \/ k = 3%Z) by lia.
  destruct Ek as [-> | [-> | ->]].
  - apply (fdiv_floor_lt x cellWidth 300 8 (300 * 2 ^ 44));
      [exact Hx | reflexivity | reflexivity | reflexivity
      | vm_compute; reflexivity | exact Hlt].
  - apply (fdiv_floor_lt x cellWidth 600 9 (600 * 2 ^ 43));
      [exact Hx | reflexivity | reflexivity | reflexivity
      | vm_compute; reflexivity | exact Hlt].
  - apply (fdiv_floor_lt x cellWidth 900 9 (900 * 2 ^ 43));
      [exact Hx | reflexivity | reflexivity | reflexivity
      | vm_compute; reflexivity | exact Hlt].
Qed.

Lemma below_row (y : Q) (k : Z) :
  representable y -> (1 <= k <= 3)%Z -> y < inject_Z k * cellHeight ->
  (Qfloor (fdiv y cellHeight) < k)%Z.
Proof.
  intros Hy Hk Hlt.
  assert (Ek : k = 1%Z \/ k = 2%Z \/ k = 3%Z) by lia.
  destruct Ek as [-> | [-> | ->]].
  - apply (fdiv_floor_lt y cellHeight 400 8 (400 * 2 ^ 44));
      [exact Hy | reflexivity | reflexivity | reflexivity
      | vm_compute; reflexivity | exact Hlt].
  - apply (fdiv_floor_lt y cellHeight 800 9 (800 * 2 ^ 43));
      [exact Hy | reflexivity | reflexivity | reflexivity
      | vm_compute; reflexivity | exact Hlt].
  - apply (fdiv_floor_lt y cellHeight 1200 10 (1200 * 2 ^ 42));
      [exact Hy | reflexivity | reflexivity | reflexivity
      | vm_compute; reflexivity | exact Hlt].
Qed.

(** On the grid the rounding of the quotient does not move a coordinate to
    another cell: a binary64 coordinate in the [k]-th stretch of cells of
    either size has the rounded quotient's floor [k]. *)
Lemma column_of (x : Q) (k : Z) :
  representable x -> (0 <= k <= 2)%Z ->
  inject_Z k * cellWidth <= x -> x < inject_Z (k + 1) * cellWidth ->
  Qfloor (fdiv x cellWidth) = k.
Proof.
  intros Hx Hk Hlo Hhi.
  pose proof (fdiv_floor_ge x cellWidth k cellWidth_pos ltac:(lia) Hlo).
  pose proof (below_column x (k + 1) Hx ltac:(lia) Hhi). lia.
Qed.

Lemma row_of (y : Q) (k : Z) :
  representable y -> (0 <= k <= 2)%Z ->
  inject_Z k * cellHeight <= y -> y < inject_Z (k + 1) * cellHeight ->
  Qfloor (fdiv y cellHeight) = k.
Proof.
  intros Hy Hk Hlo Hhi.
  pose proof (fdiv_floor_ge y cellHeight k cellHeight_pos ltac:(lia) Hlo).
  pose proof (below_row y (k + 1) Hy ltac:(lia) Hhi). lia.
Qed.

(** A coordinate in [0, 3c) lies in one of the three stretches. *)
Lemma stretch_of (x c : Q) :
  0 < c -> 0 <= x -> x < inject_Z 3 * c ->
  (0 <= Qfloor (x / c) <= 2)%Z /\
  inject_Z (Qfloor (x / c)) * c <= x /\
  x < inject_Z (Qfloor (x / c) + 1) * c.
Proof.
  intros Hc H0 H3.
  assert (Hne : ~ c == 0) by (intros E; rewrite E in Hc; discriminate).
  assert (Ex : x / c * c == x) by (field; exact Hne).
  split; [split |]; [| | split].
  - change 0%Z with (Qfloor 0). apply Qfloor_resp_le.
    apply Qle_shift_div_l; [exact Hc | now rewrite Qmult_0_l].
  - assert (Qfloor (x / c) < 3)%Z; [| lia].
    rewrite Zlt_Qlt. eapply Qle_lt_trans; [apply Qfloor_le |].
    now apply Qlt_shift_div_r.
  - rewrite <- Ex at 2.
    apply Qmult_le_compat_r; [apply Qfloor_le | now apply Qlt_le_weak].
  - rewrite <- Ex at 1.
    apply Qmult_lt_compat_r; [exact Hc | apply Qlt_floor].
Qed.

(** [row * 3 + col] is computed exactly on integers of moderate size. *)
Lemma index_exact (r c : Z) :
  (Z.abs r < 2 ^ 50)%Z -> (Z.abs c < 2 ^ 50)%Z ->
  Qfloor (fadd (fmul (inject_Z r) 3) (inject_Z c)) = (r * 3 + c)%Z.
Proof.
  intros Hr Hc. unfold fadd, fmul.
  assert (E1 : inject_Z r * 3 == inject_Z (r * 3))
    by (rewrite inject_Z_mult; reflexivity).
  rewrite (round64_comp _ _ E1).
  assert (E2 : round64 (inject_Z (r * 3)) + inject_Z c == inject_Z (r * 3 + c)).
  { rewrite round64_Z by lia. now rewrite inject_Z_plus. }
  rewrite (round64_comp _ _ E2).
  rewrite (Qfloor_comp _ _ (round64_Z (r * 3 + c) ltac:(lia))). apply Qfloor_Z.
Qed.



(** Displayed at half the buffer size, the scale factor is two. *)
Lemma half_size_scale (c r : Q) : 0 < r -> r == c / 2 -> c / r == 2.
Proof.
  intros Hr Heq. assert (Hc : c == 2 * r) by (rewrite Heq; field).
  rewrite Hc. field. intros H0. rewrite H0 in Hr. discriminate.
Qed.

(** Multiplying a binary64 number by a scale factor of two is exact. *)
Lemma fmul_scale_two (o c r : Q) :
  0 < r -> r == c / 2 -> fmul (round64 o) (fdiv c r) == 2 * round64 o.
Proof.
  intros Hr Heq. unfold fmul, fdiv.
  rewrite (round64_comp _ _ (half_size_scale c r Hr Heq)).
  assert (E2 : round64 2 == 2) by (vm_compute; reflexivity).
  assert (E : round64 o * round64 2 == 2 * round64 o) by (rewrite E2; ring).
  rewrite (round64_comp _ _ E).
  apply round64_exact, representable_double, round64_representable.
Qed.

(** C5. For a displayed canvas with the grid's buffer size (900 x 1200) and a
    pointer whose coordinate in buffer space, as [getGridPosition] computes
    it, lies within the buffer: the coordinate is the pointer's offset in the
    displayed box times buffer size over displayed size (a canvas displayed
    at half its buffer size doubles the offset), and [getGridPosition]
    returns [col = floor(x / cellWidth)], [row = floor(y / cellHeight)]
    (the rounding of the two quotients does not change their floors) and
    [index = row*3 + col] with [row] and [col] in [0, 2], so [index] in
    [0, 8]. *)
Theorem getGridPosition_within_bounds (cv : Canvas) (clientX clientY : Q) :
  displayed cv ->
  finitely_scaled cv clientX clientY ->
  canvas_width cv == gridWidth ->
  canvas_height cv == gridHeight ->
  0 <= surfaceX cv clientX /\ surfaceX cv clientX < canvas_width cv ->
  0 <= surfaceY cv clientY /\ surfaceY cv clientY < canvas_height cv ->
  let rect := canvas_rect cv in
  let p := getGridPosition cv clientX clientY in
  surfaceX cv clientX =
    fmul (fsub clientX (rect_left rect)) (fdiv (canvas_width cv) (rect_width rect)) /\
  surfaceY cv clientY =
    fmul (fsub clientY (rect_top rect)) (fdiv (canvas_height cv) (rect_height rect)) /\
  (rect_width rect == canvas_width cv / 2 ->
   surfaceX cv clientX == 2 * fsub clientX (rect_left rect)) /\
  (rect_height rect == canvas_height cv / 2 ->
   surfaceY cv clientY == 2 * fsub clientY (rect_top rect)) /\
  col p = Qfloor (fdiv (surfaceX cv clientX) cellWidth) /\
  row p = Qfloor (fdiv (surfaceY cv clientY) cellHeight) /\
  col p = Qfloor (surfaceX cv clientX / cellWidth) /\
  row p = Qfloor (surfaceY cv clientY / cellHeight) /\
  index p = (row p * 3 + col p)%Z /\
  (0 <= col p <= 2)%Z /\ (0 <= row p <= 2)%Z /\ (0 <= index p <= 8)%Z.
Proof.
  intros [Hrw Hrh] _ Hcw Hch [Hx0 Hx1] [Hy0 Hy1] rect p.
  rewrite Hcw in Hx1. rewrite Hch in Hy1.
  destruct (stretch_of _ _ cellWidth_pos Hx0 Hx1) as (Hc & Hc0 & Hc1).
  destruct (stretch_of _ _ cellHeight_pos Hy0 Hy1) as (Hr & Hr0 & Hr1).
  assert (Ecol : col p = Qfloor (surfaceX cv clientX / cellWidth)).
  { apply column_of; [apply round64_representable | exact Hc | exact Hc0 | exact Hc1]. }
  assert (Erow : row p = Qfloor (surfaceY cv clientY / cellHeight)).
  { apply row_of; [apply round64_representable | exact Hr | exact Hr0 | exact Hr1]. }
  assert (Eindex : index p = (row p * 3 + col p)%Z).
  { apply index_exact; rewrite ?Erow, ?Ecol; lia. }
  split_and!; try reflexivity; try exact Ecol; try exact Erow; try exact Eindex;
    try lia.
  - intros Hhalf. apply fmul_scale_two; assumption.
  - intros Hhalf. apply fmul_scale_two; assumption.
Qed.

(** The last pixel of a canvas shown at half size lands in the last cell. *)
Lemma getGridPosition_within_bounds_witness :
  surfaceX half_canvas 449 == 2 * fsub 449 0 /\
  index (getGridPosition half_canvas 449 599) = 8%Z.
Proof.
  assert (Hshown : displayed half_canvas) by (split; reflexivity).
  assert (Hfinite : finitely_scaled half_canvas 449 599)
    by (split_and!; vm_compute; reflexivity).
  destruct (getGridPosition_within_bounds half_canvas 449 599 Hshown Hfinite)
    as (_ & _ & Hx & _ & Hc & Hr & _ & _ & Hi & _);
    [ reflexivity | reflexivity
    | split; [vm_compute; discriminate | vm_compute; reflexivity]
    | split; [vm_compute; discriminate | vm_compute; reflexivity] |].
  split.
  - apply Hx. reflexivity.
  - rewrite Hi, Hc, Hr. vm_compute. reflexivity.
Defined.

(** Rounding is part of the computation.  On the canvas shown at 873 x 1164
    the pointer (291, 388) lies exactly on the corner of the middle cell,
    yet the computed coordinate is one unit in the last place below
    (300, 400), so the pointer is located in cell 0. *)
Lemma getGridPosition_rounds_down :
  (291 - 0) * (900 / 873) == 300 /\
  surfaceX shrunk_canvas 291 == 300 - pow2 (-44) /\
  surfaceY shrunk_canvas 388 == 400 - pow2 (-44) /\
  getGridPosition shrunk_canvas 291 388 = mkPos 0 0 0.
Proof. split_and!; vm_compute; reflexivity. Qed.

(** On a canvas shown 98 pixels wide, the last binary64 pointer coordinate
    inside the displayed box is scaled to the buffer width itself: the
    computed coordinate is outside the buffer, in column 3, although the
    exact product is inside. *)
Lemma getGridPosition_rounds_up :
  (98 - pow2 (-46) - 0) * (900 / 98) < 900 /\
  surfaceX narrow_canvas (98 - pow2 (-46)) == 900 /\
  col (getGridPosition narrow_canvas (98 - pow2 (-46)) 100) = 3%Z.
Proof. split_and!; vm_compute; reflexivity. Qed.

Lemma index_out_of_range_negb (i : Z) :
  index_out_of_range i = negb (index_in_range i).
Proof.
  unfold index_out_of_range, index_in_range.
  destruct (Z.ltb_spec i 0), (Z.ltb_spec 8 i), (Z.leb_spec 0 i), (Z.leb_spec i 8);
    cbn; try reflexivity; lia.
Qed.




(** C4 (evaluation at the failing input). On a 900 x 1200 canvas shown at its
    natural size the pointer (950, 100) is right of the grid, yet
    [getGridPosition] gives column 3 of row 0, that is index 3, which passes
    the range test: a click there selects cell 3 (the first cell of the second
    row) instead of being discarded. *)
Theorem getGridPosition_outside_accepted :
  ~ on_grid (surfaceX natural_canvas 950) (surfaceY natural_canvas 100) /\
  getGridPosition natural_canvas 950 100 = mkPos 3 0 3 /\
  index_in_range (index (getGridPosition natural_canvas 950 100)) = true /\
  pendingCellIndex (after (handleClick offline 950 100 initial)) = Some 3%nat.
Proof.
  split; [| split_and!; vm_compute; reflexivity].
  intros (_ & Hx & _). vm_compute in Hx. discriminate.
Qed.

(** The same at the left edge of a canvas laid out at a fractional position:
    the whole-pixel pointer (0, 500) scales to x = -1/2, column -1 of row 1,
    that is index 2, the last cell of the row above. *)
Lemma getGridPosition_left_edge_accepted :
  displayed offset_canvas /\
  surfaceX offset_canvas 0 < 0 /\
  getGridPosition offset_canvas 0 500 = mkPos (-1) 1 2 /\
  index_in_range (index (getGridPosition offset_canvas 0 500)) = true /\
  index_out_of_range (index (getGridPosition offset_canvas 0 500)) = false.
Proof.
  split; [split; reflexivity |]. split_and!; vm_compute; reflexivity.
Qed.

End GridAddressing.

(** ** Cover-fit *)

Section CoverFitFacts.

Local Open Scope Q_scope.

Lemma Qltb_true (a b : Q) : Qltb a b = true <-> a < b.
Proof.
  unfold Qltb. destruct (Qlt_le_dec a b) as [Hlt | Hle]; split; intros H;
    try reflexivity; try assumption; try discriminate.
  exfalso. exact (Qlt_not_le _ _ H Hle).
Qed.

Lemma Qltb_false (a b : Q) : Qltb a b = false <-> b <= a.
Proof.
  unfold Qltb. destruct (Qlt_le_dec a b) as [Hlt | Hle]; split; intros H;
    try reflexivity; try assumption; try discriminate.
  exfalso. exact (Qlt_not_le _ _ Hlt H).
Qed.

(** A power of two from the smallest subnormal number up is a binary64
    number, so rounding keeps a rational between two of them. *)
Lemma representable_pow2 (k : Z) : (-1074 <= k)%Z -> representable (pow2 k).
Proof.
  intros Hk. exists 1%Z, k. split; [reflexivity |]. split; [exact Hk |].
  now rewrite Qmult_1_l.
Qed.

Lemma round64_between (q : Q) (a b : Z) :
  (-1074 <= a)%Z -> (-1074 <= b)%Z -> pow2 a <= q -> q <= pow2 b ->
  pow2 a <= round64 q /\ round64 q <= pow2 b.
Proof.
  intros Ha Hb Hlo Hhi. split.
  - rewrite <- (round64_exact _ (representable_pow2 a Ha)). now apply round64_mono.
  - rewrite <- (round64_exact _ (representable_pow2 b Hb)). now apply round64_mono.
Qed.

(** Bounds of a rounded product and of a rounded quotient. *)
Lemma fmul_between (p q : Q) (a b c d : Z) :
  (-1074 <= a + c)%Z -> (-1074 <= b + d)%Z ->
  pow2 a <= p /\ p <= pow2 b -> pow2 c <= q /\ q <= pow2 d ->
  pow2 (a + c) <= fmul p q /\ fmul p q <= pow2 (b + d).
Proof.
  intros Hac Hbd [Hp0 Hp1] [Hq0 Hq1].
  pose proof (pow2_pos a). pose proof (pow2_pos c).
  apply round64_between; try assumption; rewrite pow2_add.
  - apply Qle_trans with (pow2 a * q).
    + apply Qmult_le_l; assumption.
    + apply Qmult_le_compat_r; [assumption | lra].
  - apply Qle_trans with (p * pow2 d).
    + apply Qmult_le_l; [lra | assumption].
    + apply Qmult_le_compat_r; [assumption | apply Qlt_le_weak, pow2_pos].
Qed.

Lemma fdiv_between (p q : Q) (a b c d : Z) :
  (-1074 <= a - d)%Z -> (-1074 <= b - c)%Z ->
  pow2 a <= p /\ p <= pow2 b -> pow2 c <= q /\ q <= pow2 d ->
  pow2 (a - d) <= fdiv p q /\ fdiv p q <= pow2 (b - c).
Proof.
  intros Had Hbc [Hp0 Hp1] [Hq0 Hq1].
  pose proof (pow2_pos a). pose proof (pow2_pos c). pose proof (pow2_pos d).
  assert (Hq : 0 < q) by lra.
  apply round64_between; try assumption; rewrite pow2_sub.
  - apply Qle_shift_div_l; [exact Hq |].
    apply Qle_trans with (pow2 a / pow2 d * pow2 d).
    + apply Qmult_le_l; [| exact Hq1].
      apply Qlt_shift_div_l; [assumption | now rewrite Qmult_0_l].
    + assert (E : pow2 a / pow2 d * pow2 d == pow2 a) by (field; apply pow2_nonzero).
      rewrite E. exact Hp0.
  - apply Qle_shift_div_r; [exact Hq |].
    apply Qle_trans with (pow2 b / pow2 c * pow2 c).
    + assert (E : pow2 b / pow2 c * pow2 c == pow2 b) by (field; apply pow2_nonzero).
      rewrite E. exact Hp1.
    + apply Qmult_le_l; [| exact Hq0].
      apply Qlt_shift_div_l; [assumption |]. rewrite Qmult_0_l. apply pow2_pos.
Qed.

(** The ratio 1 is within the threshold of 1. *)
Lemma one_within_epsilon : Qabs (fsub 1 1) < epsilon.
Proof. vm_compute. reflexivity. Qed.

(** The two tests of [correction], one after the other: the second test
    looks at the ratio the first one leaves, which is the ratio of the
    width-only correction. *)
Lemma correction_cases (nw nh w h : Q) :
  let wr := correction_width_only nw nh w h in
  (nw < w -> wr = fdiv w nw) /\
  (~ nw < w -> wr = 1) /\
  (Qabs (fsub wr 1) < epsilon -> nh < h -> correction nw nh w h = fdiv h nh) /\
  (~ (Qabs (fsub wr 1) < epsilon /\ nh < h) -> correction nw nh w h = wr) /\
  (~ nw < w -> nh < h -> correction nw nh w h = fdiv h nh).
Proof.
  cbv zeta. unfold correction, correction_width_only.
  destruct (Qltb nw w) eqn:Tw.
  - apply Qltb_true in Tw. split_and!.
    + reflexivity.
    + intros H. contradiction.
    + intros He Hh. apply Qltb_true in He. apply Qltb_true in Hh.
      now rewrite He, Hh.
    + intros Hn.
      destruct (Qltb (Qabs (fsub (fdiv w nw) 1)) epsilon) eqn:Te;
        [| reflexivity].
      destruct (Qltb nh h) eqn:Th; [| reflexivity].
      exfalso. apply Hn. split; now apply Qltb_true.
    + intros H. contradiction.
  - apply Qltb_false in Tw. split_and!.
    + intros H. exfalso. exact (Qlt_not_le _ _ H Tw).
    + reflexivity.
    + intros He Hh. apply Qltb_true in He. apply Qltb_true in Hh.
      now rewrite He, Hh.
    + intros Hn.
      destruct (Qltb (Qabs (fsub 1 1)) epsilon) eqn:Te; [| reflexivity].
      destruct (Qltb nh h) eqn:Th; [| reflexivity].
      exfalso. apply Hn. split; now apply Qltb_true.
    + intros _ Hh. pose proof one_within_epsilon as He.
      apply Qltb_true in He. apply Qltb_true in Hh. now rewrite He, Hh.
Qed.

(** The proposed size of a bitmap of moderate size in a cell of moderate
    size is positive and far from overflow. *)
Lemma proposed_size_between (iw ih w h : Q) :
  moderate iw -> moderate ih -> moderate w -> moderate h ->
  let r := Qmin (fdiv w iw) (fdiv h ih) in
  (pow2 (-300) <= fmul iw r /\ fmul iw r <= pow2 300) /\
  (pow2 (-300) <= fmul ih r /\ fmul ih r <= pow2 300).
Proof.
  intros Hiw Hih Hw Hh r.
  pose proof (fdiv_between w iw (-100) 100 (-100) 100
                ltac:(lia) ltac:(lia) Hw Hiw) as Brw.
  pose proof (fdiv_between h ih (-100) 100 (-100) 100
                ltac:(lia) ltac:(lia) Hh Hih) as Brh.
  assert (Br : pow2 (-100 - 100) <= r /\ r <= pow2 (100 - -100)).
  { unfold r. destruct (Q.min_spec_le (fdiv w iw) (fdiv h ih)) as [[_ E] | [_ E]];
      rewrite E; assumption. }
  split.
  - apply (fmul_between iw r (-100) 100 (-100 - 100) (100 - -100));
      [lia | lia | exact Hiw | exact Br].
  - apply (fmul_between ih r (-100) 100 (-100 - 100) (100 - -100));
      [lia | lia | exact Hih | exact Br].
Qed.

(** The correction ratio of a proposed size within those bounds is positive
    and far from overflow. *)
Lemma correction_between (nw0 nh0 w h : Q) :
  moderate w -> moderate h ->
  pow2 (-300) <= nw0 /\ nw0 <= pow2 300 ->
  pow2 (-300) <= nh0 /\ nh0 <= pow2 300 ->
  pow2 (-400) <= correction nw0 nh0 w h /\ correction nw0 nh0 w h <= pow2 400.
Proof.
  intros Hw Hh Bw Bh.
  destruct (correction_cases nw0 nh0 w h) as (C1 & C2 & C3 & C4 & _).
  set (wr := correction_width_only nw0 nh0 w h) in *.
  pose proof (fdiv_between w nw0 (-100) 100 (-300) 300
                ltac:(lia) ltac:(lia) Hw Bw) as Bwr.
  pose proof (fdiv_between h nh0 (-100) 100 (-300) 300
                ltac:(lia) ltac:(lia) Hh Bh) as Bhr.
  assert (B1 : pow2 (-400) <= 1 /\ 1 <= pow2 400)
    by (split; vm_compute; discriminate).
  assert (Bwr' : pow2 (-400) <= wr /\ wr <= pow2 400).
  { destruct (Qlt_le_dec nw0 w) as [Hlt | Hge].
    - rewrite (C1 Hlt). exact Bwr.
    - rewrite (C2 (Qle_not_lt _ _ Hge)). exact B1. }
  destruct (Qlt_le_dec (Qabs (fsub wr 1)) epsilon) as [He | He];
    [destruct (Qlt_le_dec nh0 h) as [Hlt | Hge] |].
  - rewrite (C3 He Hlt). exact Bhr.
  - rewrite C4; [exact Bwr' |]. intros [_ H]. exact (Qlt_not_le _ _ H Hge).
  - rewrite C4; [exact Bwr' |]. intros [H _]. exact (Qlt_not_le _ _ H He).
Qed.




(** In that case the scaled bitmap does not reach the height of the cell,
    and the source rectangle is clamped to the bitmap's height. *)
Lemma correction_falls_short :
  fit_nh (fit 281 281 300 400) == 400 - pow2 (-44) /\
  fit_nh (fit 281 281 300 400) < 400 /\
  fit_ch (fit 281 281 300 400) == 281.
Proof. split_and!; vm_compute; reflexivity. Qed.

End CoverFitFacts.

(** ** Arrays *)

Section Arrays.

Context {A : Type}.
Implicit Types (a : list (option A)) (i j : nat) (v : A).

Lemma array_get_set_eq a i v : array_get (array_set a i v) i = Some v.
Proof.
  unfold array_get, array_set. case_decide as Hi.
  - now rewrite list_lookup_insert_eq.
  - rewrite lookup_app_r by lia.
    rewrite lookup_app_r by (rewrite length_replicate; lia).
    rewrite length_replicate. now replace (i - length a - (i - length a)) with 0 by lia.
Qed.

Lemma array_get_set_ne a i j v :
  i ≠ j -> array_get (array_set a i v) j = array_get a j.
Proof.
  intros Hne. unfold array_get, array_set. case_decide as Hi.
  - now rewrite list_lookup_insert_ne.
  - destruct (decide (j < length a)) as [Hj | Hj].
    + now rewrite lookup_app_l.
    + rewrite (lookup_ge_None_2 a j) by lia.
      rewrite lookup_app_r by lia.
      destruct (decide (j - length a < i - length a)) as [Hlt | Hge].
      * rewrite lookup_app_l by (rewrite length_replicate; lia).
        rewrite lookup_replicate_2 by lia. reflexivity.
      * rewrite lookup_app_r by (rewrite length_replicate; lia).
        rewrite length_replicate.
        rewrite lookup_ge_None_2; [reflexivity | simpl; lia].
Qed.

(** A write never empties a slot. *)
Lemma array_set_keeps a i j v :
  is_Some (array_get a j) -> is_Some (array_get (array_set a i v) j).
Proof.
  intros Hj. destruct (decide (i = j)) as [-> | Hne].
  - rewrite array_get_set_eq. eauto.
  - now rewrite array_get_set_ne.
Qed.

End Arrays.

(** ** Taint marks *)

Section Marks.

Implicit Types (i j : nat) (T : gset nat).

Lemma mark_cleared i T : i ∉ T ∖ {[i]}.
Proof. rewrite elem_of_difference, elem_of_singleton. tauto. Qed.

Lemma mark_set i T : i ∈ {[i]} ∪ T.
Proof. rewrite elem_of_union, elem_of_singleton. tauto. Qed.

Lemma other_marks_cleared i j T : j ≠ i -> j ∈ T ∖ {[i]} <-> j ∈ T.
Proof. intros Hne. rewrite elem_of_difference, elem_of_singleton. tauto. Qed.

Lemma other_marks_set i j T : j ≠ i -> j ∈ {[i]} ∪ T <-> j ∈ T.
Proof. intros Hne. rewrite elem_of_union, elem_of_singleton. tauto. Qed.

End Marks.

(** ** Image acquisition *)

Section Acquisition.

Implicit Types (b : Browser) (s : GridApp) (i : nat).

(** Case analysis on every answer of the browser a goal mentions. *)
Ltac browser_cases :=
  repeat match goal with
    | |- context [readAsDataURL ?b ?f] => destruct (readAsDataURL b f) eqn:?
    | |- context [loadOutcome ?b ?u ?c] => destruct (loadOutcome b u c) eqn:?
    end.

(** Reduce the projections of runs and fields, and nothing else. *)
Ltac fields :=
  cbn [outcome after effects app images taintedIndices pendingCellIndex].

Ltac run_method :=
  unfold loadImageFromUrl, loadImageFromFile, attempt, loadImage, setImage,
    taintedIndices_delete, taintedIndices_add, emit, draw, skip,
    mbind, M_bind, mret, M_ret; fields.

(** The fields and the completion of a file load, by the browser's answers. *)
Lemma loadImageFromFile_run b file i s :
  let r := loadImageFromFile b file i s in
  match path_taken b (FromFile file) with
  | LocalFile =>
      exists dataUrl w h,
        readAsDataURL b file = Some dataUrl /\
        outcome r = Fulfilled tt /\
        after r = mkApp (array_set (images s) i (mkImage dataUrl false w h))
                    (taintedIndices s ∖ {[i]}) (pendingCellIndex s) /\
        effects r = [Paint (drawOps (after r))]
  | Failed => r = mkRun Rejected s []
  | Stuck => r = mkRun Pending s []
  | _ => False
  end.
Proof.
  unfold path_taken. run_method. browser_cases; fields;
    first [reflexivity | do 3 eexists; split_and!; reflexivity].
Qed.

(** The same for the three-stage load of a URL. *)
Lemma loadImageFromUrl_run b url i s :
  let r := loadImageFromUrl b url i s in
  let stored img taint :=
    mkApp (array_set (images s) i img) taint (pendingCellIndex s) in
  match path_taken b (FromUrl url) with
  | Direct =>
      exists w h,
        r = mkRun (Fulfilled tt)
              (stored (mkImage url true w h) (taintedIndices s ∖ {[i]})) []
  | Proxied =>
      exists w h,
        r = mkRun (Fulfilled tt)
              (stored (mkImage (proxyUrl b url) true w h) (taintedIndices s ∖ {[i]}))
              [ConsoleLog "Direct CORS failed, trying proxy..."]
  | Fallback =>
      exists w h,
        let s' := stored (mkImage url false w h) ({[i]} ∪ taintedIndices s) in
        r = mkRun (Fulfilled tt) s'
              [ConsoleLog "Direct CORS failed, trying proxy...";
               ConsoleLog "Proxy failed, falling back to tainted mode...";
               Paint (drawOps s')]
  | Failed =>
      r = mkRun (Fulfilled tt) s
            [ConsoleLog "Direct CORS failed, trying proxy...";
             ConsoleLog "Proxy failed, falling back to tainted mode...";
             ConsoleError "All loading attempts failed";
             Paint (drawOps s)]
  | Stuck => outcome r = Pending /\ after r = s /\ alerts (effects r) = []
  | LocalFile => False
  end.
Proof.
  unfold path_taken. run_method. browser_cases; fields;
    first [reflexivity | do 2 eexists; reflexivity | split_and!; reflexivity].
Qed.

(** C2. After a successful acquisition into cell [i], whatever the fields
    were before: the completion is fulfilled and slot [i] holds the image of
    the request that loaded; when that was the local file, stage 1 or stage 2,
    [i] is not in the taint set; when it was stage 3 (an image loaded without
    [crossOrigin]), [i] is in the taint set; the marks of the other cells are
    as before. *)
Theorem taint_reflects_path b (src : Source) i s :
  succeeded (path_taken b src) = true ->
  let r := acquire b src i s in
  outcome r = Fulfilled tt /\
  (exists img,
     array_get (images (after r)) i = Some img /\
     img_crossOrigin img =
       match path_taken b src with Direct | Proxied => true | _ => false end) /\
  (path_taken b src = LocalFile \/ path_taken b src = Direct \/
   path_taken b src = Proxied -> i ∉ taintedIndices (after r)) /\
  (path_taken b src = Fallback -> i ∈ taintedIndices (after r)) /\
  (forall j, j ≠ i -> j ∈ taintedIndices (after r) <-> j ∈ taintedIndices s).
Proof.
  intros Hok r. subst r. destruct src as [file | url]; cbn [acquire].
  - pose proof (loadImageFromFile_run b file i s) as Hrun. cbv zeta in Hrun.
    destruct (path_taken b (FromFile file)); try discriminate Hok; try contradiction.
    destruct Hrun as (dataUrl & w & h & _ & Ho & Ha & _). rewrite Ha, Ho.
    cbn [images taintedIndices]. split_and!.
    + reflexivity.
    + eexists. rewrite array_get_set_eq. split; reflexivity.
    + intros _. apply mark_cleared.
    + discriminate.
    + intros j Hj. now apply other_marks_cleared.
  - pose proof (loadImageFromUrl_run b url i s) as Hrun. cbv zeta in Hrun.
    destruct (path_taken b (FromUrl url)); try discriminate Hok; try contradiction;
      destruct Hrun as (w & h & ->); cbn [outcome after images taintedIndices];
      (split_and!;
       [ reflexivity
       | eexists; rewrite array_get_set_eq; split; reflexivity
       | intros Hp;
         first [apply mark_cleared | destruct Hp as [? | [? | ?]]; discriminate]
       | intros Hp; first [apply mark_set | discriminate]
       | intros j Hj;
         first [now apply other_marks_cleared | now apply other_marks_set] ]).
Qed.

(** A stage-3 load into cell 3 of the empty grid marks cell 3. *)
Lemma taint_reflects_path_witness :
  3 ∈ taintedIndices (after (acquire fallbackOnly (FromUrl "http://x/y.png") 3 initial)).
Proof.
  destruct (taint_reflects_path fallbackOnly (FromUrl "http://x/y.png") 3 initial)
    as (_ & _ & _ & Hadd & _); [reflexivity |].
  apply Hadd. reflexivity.
Defined.

(** C3. When an acquisition into cell [i] fails completely (the local image
    does not decode, or the three requests of a URL all error), the fields
    are exactly as before, in particular slot [i] and the mark of [i], and no
    alert is raised: a local load rejects its promise without any effect, a
    URL load logs the failure on the console. *)
Theorem failed_acquisition_changes_nothing b (src : Source) i s :
  path_taken b src = Failed ->
  let r := acquire b src i s in
  after r = s /\
  array_get (images (after r)) i = array_get (images s) i /\
  (i ∈ taintedIndices (after r) <-> i ∈ taintedIndices s) /\
  alerts (effects r) = [] /\
  match src with
  | FromFile _ => outcome r = Rejected /\ effects r = []
  | FromUrl _ =>
      outcome r = Fulfilled tt /\
      ConsoleError "All loading attempts failed" ∈ effects r
  end.
Proof.
  intros Hfail r. subst r. destruct src as [file | url]; cbn [acquire].
  - pose proof (loadImageFromFile_run b file i s) as Hrun. cbv zeta in Hrun.
    rewrite Hfail in Hrun. rewrite Hrun. cbn [outcome after effects].
    split_and!; reflexivity.
  - pose proof (loadImageFromUrl_run b url i s) as Hrun. cbv zeta in Hrun.
    rewrite Hfail in Hrun. rewrite Hrun. cbn [outcome after effects].
    split_and!; try reflexivity. do 2 right. left.
Qed.

(** With no network, dropping a URL on cell 3 leaves the grid as it was. *)
Lemma failed_acquisition_changes_nothing_witness :
  after (acquire offline (FromUrl "http://x/y.png") 3 initial) = initial.
Proof.
  destruct (failed_acquisition_changes_nothing offline (FromUrl "http://x/y.png")
              3 initial) as (Hsame & _); [reflexivity |].
  exact Hsame.
Defined.

End Acquisition.

(** ** Export *)

Section ExportFacts.

Implicit Types (b : Browser) (s : GridApp).

Lemma tainted_size s : taintedIndices s ≠ ∅ <-> 0 < size (taintedIndices s).
Proof.
  split.
  - intros Hne. assert (size (taintedIndices s) ≠ 0); [| lia].
    apply size_non_empty_iff. intros Heq. apply Hne. now apply leibniz_equiv.
  - intros Hpos Heq. rewrite Heq, size_empty in Hpos. lia.
Qed.

(** C1. With a non-empty taint set, [downloadImage] shows the notice that
    asks to save the marked images and add them as local files, and returns:
    no link is clicked, the fields are unchanged, and the result does not
    depend on what serialising the canvas would give. *)
Theorem downloadImage_refuses_tainted b s :
  taintedIndices s ≠ ∅ ->
  let r := downloadImage b s in
  outcome r = Fulfilled tt /\
  effects r = [Alert taintNotice] /\
  downloads (effects r) = [] /\
  after r = s /\
  (forall b', downloadImage b' s = r).
Proof.
  intros Hne r. subst r. apply tainted_size in Hne.
  assert (Hrun : forall b', downloadImage b' s = mkRun (Fulfilled tt) s [Alert taintNotice]).
  { intros b'. unfold downloadImage. case_decide; [reflexivity | contradiction]. }
  rewrite !Hrun. split_and!; try reflexivity. intros b'. apply Hrun.
Qed.

(** The taint set {3}: nothing is downloaded. *)
Lemma downloadImage_refuses_tainted_witness :
  downloads (effects (downloadImage fallbackOnly (mkApp (replicate 9 None) {[3]} None))) = [].
Proof.
  destruct (downloadImage_refuses_tainted fallbackOnly
              (mkApp (replicate 9 None) {[3]} None)) as (_ & _ & Hnone & _).
  - intros H. vm_compute in H. discriminate.
  - exact Hnone.
Defined.

(** C9 (as stated). Cell 3 is filled by a stage-3 load and then overwritten
    by a local file: the taint set is empty and a cell is populated, but when
    the canvas refuses to serialise, [downloadImage] clicks no link and shows
    the second notice. *)
Lemma downloadImage_blocked_without_taint :
  reachable relit /\
  taintedIndices relit = ∅ /\
  populated relit /\
  downloads (effects (downloadImage (unclean fallbackOnly) relit)) = [] /\
  alerts (effects (downloadImage (unclean fallbackOnly) relit)) = [exportFailedNotice].
Proof.
  split_and!.
  - exists [(fallbackOnly, dropUrl); (fallbackOnly, dropPng)].
    split; [| reflexivity]. repeat constructor.
  - vm_compute. reflexivity.
  - exists 3. vm_compute. eauto.
  - vm_compute. reflexivity.
  - vm_compute. reflexivity.
Qed.

(** C9 (amended). With an empty taint set and a populated cell, when
    serialising the canvas to PNG succeeds [downloadImage] clicks exactly one
    link, named 3x3-grid.png, whose target is the serialised image, and shows
    no notice; when serialising throws, no link is clicked and the generic
    notice is shown.  The fields are unchanged either way. *)
Theorem downloadImage_downloads_once b s :
  taintedIndices s = ∅ -> populated s ->
  let r := downloadImage b s in
  outcome r = Fulfilled tt /\ after r = s /\
  match toDataURL b with
  | Some href =>
      effects r = [LinkClick "3x3-grid.png" href] /\
      downloads (effects r) = [("3x3-grid.png", href)] /\
      alerts (effects r) = []
  | None =>
      effects r = [Alert exportFailedNotice; ConsoleErrorException] /\
      downloads (effects r) = []
  end.
Proof.
  intros Hclean _ r. subst r. unfold downloadImage.
  case_decide as Hpos; [rewrite Hclean, size_empty in Hpos; lia |].
  destruct (toDataURL b) as [href |]; split_and!; reflexivity.
Qed.

(** The relit grid in a browser that serialises: one download. *)
Lemma downloadImage_downloads_once_witness :
  downloads (effects (downloadImage fallbackOnly relit)) =
  [("3x3-grid.png", "data:image/png;base64,")].
Proof.
  destruct (downloadImage_downloads_once fallbackOnly relit) as (_ & _ & _ & Hone & _).
  - vm_compute. reflexivity.
  - exists 3. vm_compute. eauto.
  - exact Hone.
Defined.

End ExportFacts.

(** ** Drops *)

Section Drops.

Implicit Types (b : Browser) (s : GridApp) (dt : DataTransfer).

Lemma truthy_empty : truthy "" = false.
Proof. reflexivity. Qed.

Lemma truthy_false (str : string) : truthy str = false <-> str = "".
Proof.
  unfold truthy. rewrite negb_false_iff. apply String.eqb_eq.
Qed.

(** The successive overwrites of [src] amount to a choice by priority. *)
Lemma dropSource_by_priority b dt :
  dropSource b dt =
    if truthy (htmlCandidate b dt) then htmlCandidate b dt
    else if truthy (dt_uri_list dt) then dt_uri_list dt
    else if plainAccepted dt then dt_plain dt
    else "".
Proof.
  unfold dropSource, htmlCandidate, plainAccepted. cbv zeta.
  destruct (truthy (dt_html dt));
    [destruct (querySelectorImgSrc b (dt_html dt)) as [a |];
       [destruct (truthy a) eqn:Ha |] |];
    destruct (truthy (dt_uri_list dt)) eqn:Hu;
    rewrite ?truthy_empty, ?Ha, ?Hu; cbn [negb andb];
    rewrite ?truthy_empty, ?Ha, ?Hu; cbn [negb andb];
    try reflexivity.
  apply truthy_false in Ha. subst a.
  destruct (truthy (dt_plain dt) && _); reflexivity.
Qed.

(** C7. For a drop without files, the source is chosen by strict priority:
    the [src] of the image element of the HTML payload when there is one
    (and it is not empty); else the URI list; else the plain text, only when
    it starts with http or data:image; else there is none.  So an HTML
    payload whose image has source [A] wins over any URI list.  With no
    source the drop changes nothing and has no effect; with one, on a cell
    of a displayed canvas, it is the URL load of that source into that
    cell. *)
Theorem drop_source_priority b dt :
  dt_files dt = [] ->
  (forall A, truthy (dt_html dt) = true ->
     querySelectorImgSrc b (dt_html dt) = Some A -> truthy A = true ->
     dropSource b dt = A) /\
  (truthy (htmlCandidate b dt) = false -> truthy (dt_uri_list dt) = true ->
     dropSource b dt = dt_uri_list dt) /\
  (truthy (htmlCandidate b dt) = false -> truthy (dt_uri_list dt) = false ->
     dropSource b dt = if plainAccepted dt then dt_plain dt else "") /\
  (forall x y s,
     truthy (dropSource b dt) = false ->
     handleDrop b (Some dt) x y s = mkRun (Fulfilled tt) s []) /\
  (forall x y s,
     let i := index (getGridPosition (canvas b) x y) in
     displayed (canvas b) -> index_in_range i = true ->
     truthy (dropSource b dt) = true ->
     handleDrop b (Some dt) x y s =
     loadImageFromUrl b (dropSource b dt) (Z.to_nat i) s).
Proof.
  intros Hfiles. split_and!.
  - intros A Hhtml Himg HA. rewrite dropSource_by_priority.
    unfold htmlCandidate. rewrite Hhtml, Himg. now rewrite HA.
  - intros Hh Hu. rewrite dropSource_by_priority. now rewrite Hh, Hu.
  - intros Hh Hu. rewrite dropSource_by_priority. now rewrite Hh, Hu.
  - intros x y s Hnone. unfold handleDrop. rewrite Hfiles, Hnone.
    destruct (index_out_of_range _); reflexivity.
  - intros x y s i _ Hin Hsrc. subst i. unfold handleDrop.
    rewrite Hfiles, Hsrc, index_out_of_range_negb, Hin. reflexivity.
Qed.

(** An image element with source A next to the URI list B: the source is A. *)
Lemma drop_source_priority_witness : dropSource fallbackOnly richDrop = "A".
Proof.
  destruct (drop_source_priority fallbackOnly richDrop) as (Hhtml & _);
    [reflexivity |].
  apply Hhtml; reflexivity.
Defined.

(** C10. A drop whose first file has a MIME type that does not start with
    image/ returns at once: no load is started, nothing is observable, and
    the images, the taint set and the pending selection are unchanged,
    whatever URL payloads the drop also carries. *)
Theorem drop_non_image_file_ignored b dt (file : File) (rest : list File)
    (x y : Q) s :
  dt_files dt = file :: rest ->
  String.prefix "image/" (file_type file) = false ->
  handleDrop b (Some dt) x y s = mkRun (Fulfilled tt) s [].
Proof.
  intros Hfiles Htype. unfold handleDrop. rewrite Hfiles, Htype.
  destruct (index_out_of_range _); reflexivity.
Qed.

(** A text file dropped together with an image element and a URI list. *)
Lemma drop_non_image_file_ignored_witness :
  handleDrop fallbackOnly (Some textFileDrop) 100 100 relit = mkRun (Fulfilled tt) relit [].
Proof.
  apply (drop_non_image_file_ignored fallbackOnly textFileDrop txt []); reflexivity.
Defined.

End Drops.

(** ** The invariant of the taint set *)

Section Invariant.

Implicit Types (b : Browser) (s : GridApp) (i : nat).

Lemma taint_inv_initial : taint_inv initial.
Proof. intros i Hi. cbn in Hi. now apply not_elem_of_empty in Hi. Qed.

(** Each uninterrupted write keeps the invariant: a slot is never emptied,
    and a mark is set only together with its slot. *)
Lemma taint_inv_commit s s' : commit s s' -> taint_inv s -> taint_inv s'.
Proof.
  intros Hstep Hinv j. destruct Hstep as [i img | i img | p];
    cbn [images taintedIndices]; intros Hj.
  - apply elem_of_difference in Hj as [Hj _]. apply array_set_keeps. now apply Hinv.
  - apply elem_of_union in Hj as [Hj | Hj].
    + apply elem_of_singleton in Hj. subst j. rewrite array_get_set_eq. eauto.
    + apply array_set_keeps. now apply Hinv.
  - now apply Hinv.
Qed.

Lemma taint_inv_commits s s' : commits s s' -> taint_inv s -> taint_inv s'.
Proof.
  induction 1 as [| s1 s2 _ IH Hstep]; intros Hinv; [exact Hinv |].
  eapply taint_inv_commit; [exact Hstep | now apply IH].
Qed.

Lemma commits_one s s' : commit s s' -> commits s s'.
Proof. intros H. eapply commits_step; [apply commits_refl | exact H]. Qed.

(** An acquisition is at most one write. *)
Lemma acquire_commits b (src : Source) i s : commits s (after (acquire b src i s)).
Proof.
  destruct src as [file | url]; cbn [acquire].
  - pose proof (loadImageFromFile_run b file i s) as Hrun. cbv zeta in Hrun.
    destruct (path_taken b (FromFile file)); try contradiction.
    + destruct Hrun as (dataUrl & w & h & _ & _ & -> & _).
      apply commits_one, commit_clean.
    + rewrite Hrun. apply commits_refl.
    + rewrite Hrun. apply commits_refl.
  - pose proof (loadImageFromUrl_run b url i s) as Hrun. cbv zeta in Hrun.
    destruct (path_taken b (FromUrl url)); try contradiction.
    + destruct Hrun as (w & h & ->). apply commits_one, commit_clean.
    + destruct Hrun as (w & h & ->). apply commits_one, commit_clean.
    + destruct Hrun as (w & h & ->). apply commits_one, commit_tainted.
    + rewrite Hrun. apply commits_refl.
    + destruct Hrun as (_ & -> & _). apply commits_refl.
Qed.

Lemma then_pending_commits (m : M unit) (p : option nat) s :
  commits s (after (m s)) ->
  commits s (after ((m ;; set_pendingCellIndex p) s)).
Proof.
  intros Hm. unfold mbind, M_bind, set_pendingCellIndex.
  destruct (m s) as [[[] | |] s1 es1]; cbn [after] in *; try exact Hm.
  eapply commits_step; [exact Hm | apply commit_pending].
Qed.

Lemma handleClick_commits b (x y : Q) s : commits s (after (handleClick b x y s)).
Proof.
  unfold handleClick. destruct (index_in_range _); [| apply commits_refl].
  apply commits_one, commit_pending.
Qed.

Lemma handleFileSelect_commits b (files : list File) s :
  commits s (after (handleFileSelect b files s)).
Proof.
  unfold handleFileSelect. destruct (pendingCellIndex s) as [pending |];
    [| apply commits_refl].
  apply then_pending_commits. destruct files as [| file rest].
  - apply commits_refl.
  - apply (acquire_commits b (FromFile file)).
Qed.

Lemma handleDrop_commits b (dt : option DataTransfer) (x y : Q) s :
  commits s (after (handleDrop b dt x y s)).
Proof.
  unfold handleDrop. destruct dt as [dt |]; [| apply commits_refl].
  destruct (index_out_of_range _); [apply commits_refl |].
  destruct (dt_files dt) as [| file rest].
  - destruct (truthy _); [| apply commits_refl].
    apply (acquire_commits b (FromUrl _)).
  - destruct (String.prefix _ _); [| apply commits_refl].
    apply (acquire_commits b (FromFile file)).
Qed.

Lemma downloadImage_after b s : after (downloadImage b s) = s.
Proof.
  unfold downloadImage. case_decide; [reflexivity |].
  destruct (toDataURL b); reflexivity.
Qed.

(** Every handler is a sequence of uninterrupted writes. *)
Lemma handle_commits b (e : Event) s : commits s (after (handle b e s)).
Proof.
  destruct e; cbn [handle].
  - apply handleClick_commits.
  - apply handleFileSelect_commits.
  - apply handleDrop_commits.
  - rewrite downloadImage_after. apply commits_refl.
Qed.

Lemma session_taint_inv (evs : list (Browser * Event)) s :
  taint_inv s -> taint_inv (session evs s).
Proof.
  revert s. induction evs as [| [b e] evs IH]; intros s Hinv; cbn [session].
  - exact Hinv.
  - apply IH. eapply taint_inv_commits; [apply handle_commits | exact Hinv].
Qed.

(** C8. In every state reached from the constructor by any sequence of
    clicks, file selections, drops (the acquisitions, each with any answers
    of the browser) and download requests on a displayed canvas, with the
    renders they trigger, every index of the taint set has a non-empty
    slot. *)
Theorem reachable_taint_inv s : reachable s -> taint_inv s.
Proof.
  intros (evs & _ & ->). apply session_taint_inv. apply taint_inv_initial.
Qed.

(** The grid after a stage-3 load into cell 3, whose mark is set. *)
Lemma reachable_taint_inv_witness :
  taint_inv (session [(fallbackOnly, dropUrl)] (after (draw initial))).
Proof.
  apply reachable_taint_inv. exists [(fallbackOnly, dropUrl)].
  split; [| reflexivity]. repeat constructor.
Defined.

(** The invariant also holds along any interleaving of the writes of
    acquisitions that overlap in time. *)
Lemma interleaved_taint_inv s : commits initial s -> taint_inv s.
Proof. intros H. eapply taint_inv_commits; [exact H | apply taint_inv_initial]. Qed.

End Invariant.

(** * Further properties of the controller *)

(** ** Where cells are drawn and how they are located *)

Section CellGeometry.

Local Open Scope Q_scope.

Lemma cell_index (i : nat) :
  (Z.of_nat (i / 3) * 3 + Z.of_nat (i mod 3))%Z = Z.of_nat i.
Proof.
  pose proof (Nat.div_mod_eq i 3) as H. lia.
Qed.

(** The products and the quotient that place a cell are exact: cell [i]
    (0..8) starts at column [i mod 3] and row [i / 3]. *)
Lemma cell_origin (i : nat) :
  (i < 9)%nat ->
  cellX i == inject_Z (Z.of_nat (i mod 3)) * cellWidth /\
  cellY i == inject_Z (Z.of_nat (i / 3)) * cellHeight.
Proof.
  intros Hi.
  do 9 (destruct i as [| i]; [split; vm_compute; reflexivity |]). lia.
Qed.

(** A computed buffer point inside the rectangle of cell [i] is located in
    cell [i]. *)
Lemma getGridPosition_in_cell (cv : Canvas) (clientX clientY : Q) (i : nat) :
  (i < 9)%nat ->
  cellX i <= surfaceX cv clientX -> surfaceX cv clientX < cellX i + cellWidth ->
  cellY i <= surfaceY cv clientY -> surfaceY cv clientY < cellY i + cellHeight ->
  getGridPosition cv clientX clientY =
  mkPos (Z.of_nat (i mod 3)) (Z.of_nat (i / 3)) (Z.of_nat i).
Proof.
  intros Hi Hx0 Hx1 Hy0 Hy1. destruct (cell_origin i Hi) as [Ex Ey].
  rewrite Ex in Hx0, Hx1. rewrite Ey in Hy0, Hy1.
  assert (Hc : (0 <= Z.of_nat (i mod 3) <= 2)%Z)
    by (pose proof (Nat.mod_upper_bound i 3); lia).
  assert (Hr : (0 <= Z.of_nat (i / 3) <= 2)%Z).
  { split; [lia |]. assert (i / 3 < 3)%nat; [| lia].
    apply Nat.Div0.div_lt_upper_bound. lia. }
  assert (Ecol : Qfloor (fdiv (surfaceX cv clientX) cellWidth) = Z.of_nat (i mod 3)).
  { apply column_of; [apply round64_representable | exact Hc | exact Hx0 |].
    rewrite inject_Z_plus. eapply Qlt_le_trans; [exact Hx1 |].
    apply Qle_lteq. right. change (inject_Z 1) with 1. ring. }
  assert (Erow : Qfloor (fdiv (surfaceY cv clientY) cellHeight) = Z.of_nat (i / 3)).
  { apply row_of; [apply round64_representable | exact Hr | exact Hy0 |].
    rewrite inject_Z_plus. eapply Qlt_le_trans; [exact Hy1 |].
    apply Qle_lteq. right. change (inject_Z 1) with 1. ring. }
  unfold getGridPosition. cbv zeta. rewrite Ecol, Erow.
  rewrite index_exact by lia. now rewrite cell_index.
Qed.

Lemma cell_in_range (i : nat) :
  (i < 9)%nat -> index_in_range (Z.of_nat i) = true.
Proof.
  intros Hi. unfold index_in_range. apply andb_true_iff.
  split; apply Z.leb_le; lia.
Qed.

(** [draw] paints the image of a populated cell into the cell's rectangle. *)
Lemma drawOps_cell (s : GridApp) (i : nat) (img : HTMLImageElement) :
  (i < 9)%nat -> array_get (images s) i = Some img ->
  drawImageProp img (cellX i) (cellY i) cellWidth cellHeight ∈ drawOps s.
Proof.
  intros Hi Himg. unfold drawOps. apply elem_of_cons. right.
  apply elem_of_app. left. apply list_elem_of_In, in_flat_map.
  exists i. split; [apply in_seq; lia |].
  unfold cellOps. rewrite Himg. left. reflexivity.
Qed.

(** X1. What is drawn is what is clicked: the image of a populated cell
    [i] (0..8) is painted into the rectangle at ([cellX i], [cellY i]) of
    size 300 x 400, which starts at column [i mod 3] and row [i / 3] of the
    grid, and every pointer whose buffer coordinate, as [getGridPosition]
    computes it, falls inside that rectangle is located in column [i mod 3],
    row [i / 3], index [i]. *)
Theorem drawn_cell_is_located (s : GridApp) (cv : Canvas) (clientX clientY : Q)
    (i : nat) (img : HTMLImageElement) :
  (i < 9)%nat -> array_get (images s) i = Some img ->
  displayed cv -> finitely_scaled cv clientX clientY ->
  cellX i <= surfaceX cv clientX /\ surfaceX cv clientX < cellX i + cellWidth ->
  cellY i <= surfaceY cv clientY /\ surfaceY cv clientY < cellY i + cellHeight ->
  (exists sx sy sw sh,
     DrawImage img sx sy sw sh (cellX i) (cellY i) cellWidth cellHeight ∈ drawOps s) /\
  (cellX i == inject_Z (Z.of_nat (i mod 3)) * cellWidth /\
   cellY i == inject_Z (Z.of_nat (i / 3)) * cellHeight) /\
  getGridPosition cv clientX clientY =
  mkPos (Z.of_nat (i mod 3)) (Z.of_nat (i / 3)) (Z.of_nat i).
Proof.
  intros Hi Himg _ _ [Hx0 Hx1] [Hy0 Hy1]. split_and!.
  - do 4 eexists. exact (drawOps_cell s i img Hi Himg).
  - apply (cell_origin i Hi).
  - apply (cell_origin i Hi).
  - now apply getGridPosition_in_cell.
Qed.

(** The stage-3 image of cell 3, and a pointer at (100, 500) on the canvas
    shown at 873 x 1164. *)
Lemma drawn_cell_is_located_witness :
  index (getGridPosition shrunk_canvas 100 500) = 3%Z.
Proof.
  assert (Hshown : displayed shrunk_canvas) by (split; reflexivity).
  assert (Hfinite : finitely_scaled shrunk_canvas 100 500)
    by (split_and!; vm_compute; reflexivity).
  destruct (drawn_cell_is_located lit shrunk_canvas 100 500 3
              (mkImage "http://x/y.png" false 100 200)) as (_ & _ & Hpos);
    [ lia | vm_compute; reflexivity | exact Hshown | exact Hfinite
    | split; [vm_compute; discriminate | vm_compute; reflexivity]
    | split; [vm_compute; discriminate | vm_compute; reflexivity] |].
  rewrite Hpos. reflexivity.
Defined.





(** The bottom edge of the canvas shown at 873 x 1164 is not below the grid
    as computed: the pointer (100, 1164) is scaled to a coordinate short of
    1200 and a click there selects cell 6. *)
Lemma bottom_edge_accepted :
  (1164 - 0) * (1200 / 1164) == gridHeight /\
  surfaceY shrunk_canvas 1164 < gridHeight /\
  getGridPosition shrunk_canvas 100 1164 = mkPos 0 2 6 /\
  pendingCellIndex (after (handleClick (shrunk online) 100 1164 lit)) = Some 6%nat.
Proof. split_and!; vm_compute; reflexivity. Qed.

(** A coordinate above the grid by less than a normal number: the quotient
    by the cell height underflows to zero and the pointer is located in the
    first row. *)
Lemma underflow_above_grid_accepted :
  surfaceY (mkCanvas 900 1200 (mkRect 0 (pow2 (-1074)) 900 1200)) 0 < 0 /\
  getGridPosition (mkCanvas 900 1200 (mkRect 0 (pow2 (-1074)) 900 1200)) 100 0
  = mkPos 0 0 0.
Proof. split; vm_compute; reflexivity. Qed.

End CellGeometry.

(** ** The file picker *)

Section FilePicker.

Implicit Types (b : Browser) (s : GridApp) (i p : nat).

Lemma run_eta {A} (r : Run A) : r = mkRun (outcome r) (after r) (effects r).
Proof. destruct r. reflexivity. Qed.

(** A local load that decodes, as one run. *)
Lemma loadImageFromFile_loaded b (file : File) i s :
  path_taken b (FromFile file) = LocalFile ->
  exists dataUrl w h,
    readAsDataURL b file = Some dataUrl /\
    loadOutcome b dataUrl false = Loaded w h /\
    let s' := mkApp (array_set (images s) i (mkImage dataUrl false w h))
                (taintedIndices s ∖ {[i]}) (pendingCellIndex s) in
    loadImageFromFile b file i s = mkRun (Fulfilled tt) s' [Paint (drawOps s')].
Proof.
  unfold path_taken, loadImageFromFile.
  destruct (readAsDataURL b file) as [dataUrl |]; [| discriminate].
  destruct (loadOutcome b dataUrl false) as [w h | |] eqn:Hload; try discriminate.
  intros _. exists dataUrl, w, h. split_and!; [reflexivity | exact Hload | reflexivity].
Qed.

(** With a pending selection, the handler is the load of the first file
    followed by the reset of the selection. *)
Lemma handleFileSelect_pending b (file : File) (rest : list File) p s :
  pendingCellIndex s = Some p ->
  handleFileSelect b (file :: rest) s =
  (loadImageFromFile b file p;; set_pendingCellIndex None) s.
Proof. intros Hp. unfold handleFileSelect. rewrite Hp. reflexivity. Qed.



(** X5. When the chosen file does not decode, the handler rejects before it
    resets the selection: the fields are exactly as before, the cell stays
    the pending selection, and nothing is observable (no notice, no
    render). *)
Theorem failed_selection_keeps_pending b (file : File) (rest : list File) p s :
  pendingCellIndex s = Some p ->
  path_taken b (FromFile file) = Failed ->
  handleFileSelect b (file :: rest) s = mkRun Rejected s [] /\
  pendingCellIndex (after (handleFileSelect b (file :: rest) s)) = Some p.
Proof.
  intros Hp Hpath. rewrite (handleFileSelect_pending b file rest p s Hp).
  pose proof (loadImageFromFile_run b file p s) as Hrun. cbv zeta in Hrun.
  rewrite Hpath in Hrun. unfold mbind, M_bind. rewrite Hrun.
  cbn [after]. split; [reflexivity | exact Hp].
Qed.

(** Cell 2 is pending and no image decodes. *)
Lemma failed_selection_keeps_pending_witness :
  pendingCellIndex (after (handleFileSelect offline [png]
                             (mkApp (replicate 9 None) ∅ (Some 2%nat)))) = Some 2%nat.
Proof.
  destruct (failed_selection_keeps_pending offline png []
              2 (mkApp (replicate 9 None) ∅ (Some 2%nat))) as [_ Hp];
    [reflexivity | reflexivity |].
  exact Hp.
Defined.

End FilePicker.

(** ** What one event can change *)

Section Frames.

Implicit Types (b : Browser) (s : GridApp) (i j : nat) (e : Event).

Ltac load_cases :=
  repeat match goal with
    | |- context [readAsDataURL ?b ?f] => destruct (readAsDataURL b f) eqn:?
    | |- context [loadOutcome ?b ?u ?c] => destruct (loadOutcome b u c) eqn:?
    end.

Ltac run_load :=
  unfold loadImageFromUrl, loadImageFromFile, attempt, loadImage, setImage,
    taintedIndices_delete, taintedIndices_add, emit, draw, skip,
    mbind, M_bind, mret, M_ret;
  cbn [outcome after effects app images taintedIndices pendingCellIndex].

(** X6. A URL load renders only on its last stage: when stage 1 or stage 2
    loads, the image is stored but the call returns without a render, so the
    canvas still shows the previous picture; when stage 3 loads, or every
    stage fails, the grid is rendered exactly once, from the final fields;
    a load that never answers renders nothing. *)
Theorem url_load_renders_only_on_last_stage b (url : string) i s :
  paints (effects (loadImageFromUrl b url i s)) =
  match path_taken b (FromUrl url) with
  | Fallback | Failed => [drawOps (after (loadImageFromUrl b url i s))]
  | _ => []
  end.
Proof.
  unfold path_taken. run_load.
  load_cases;
    cbn [outcome after effects app images taintedIndices pendingCellIndex];
    reflexivity.
Qed.

(** The fields after an acquisition: as before, or one slot written with its
    mark cleared, or one slot written, with an image requested without
    [crossOrigin], and its mark set. *)
Lemma acquire_shape b (src : Source) i s :
  pendingCellIndex (after (acquire b src i s)) = pendingCellIndex s /\
  (after (acquire b src i s) = s \/
   (exists img,
      images (after (acquire b src i s)) = array_set (images s) i img /\
      taintedIndices (after (acquire b src i s)) = taintedIndices s ∖ {[i]}) \/
   (exists img,
      img_crossOrigin img = false /\
      images (after (acquire b src i s)) = array_set (images s) i img /\
      taintedIndices (after (acquire b src i s)) = {[i]} ∪ taintedIndices s)).
Proof.
  destruct src as [file | url]; cbn [acquire].
  - pose proof (loadImageFromFile_run b file i s) as Hrun. cbv zeta in Hrun.
    destruct (path_taken b (FromFile file)); try contradiction.
    + destruct Hrun as (dataUrl & w & h & _ & _ & -> & _).
      split; [reflexivity |]. right; left. eexists. split; reflexivity.
    + rewrite Hrun. split; [reflexivity | left; reflexivity].
    + rewrite Hrun. split; [reflexivity | left; reflexivity].
  - pose proof (loadImageFromUrl_run b url i s) as Hrun. cbv zeta in Hrun.
    destruct (path_taken b (FromUrl url)); try contradiction.
    + destruct Hrun as (w & h & ->). split; [reflexivity |].
      right; left. eexists. split; reflexivity.
    + destruct Hrun as (w & h & ->). split; [reflexivity |].
      right; left. eexists. split; reflexivity.
    + destruct Hrun as (w & h & ->). split; [reflexivity |].
      right; right. exists (mkImage url false w h). split_and!; reflexivity.
    + rewrite Hrun. split; [reflexivity | left; reflexivity].
    + destruct Hrun as (_ & -> & _). split; [reflexivity | left; reflexivity].
Qed.

(** X7. An acquisition into cell [i], whichever way it ends, leaves every
    other cell alone: the image and the mark of a cell [j] other than [i]
    are as before, and so is the pending selection. *)
Theorem acquire_leaves_other_cells b (src : Source) i j s :
  j ≠ i ->
  array_get (images (after (acquire b src i s))) j = array_get (images s) j /\
  (j ∈ taintedIndices (after (acquire b src i s)) <-> j ∈ taintedIndices s) /\
  pendingCellIndex (after (acquire b src i s)) = pendingCellIndex s.
Proof.
  intros Hne. destruct (acquire_shape b src i s)
    as (Hp & [-> | [(img & Hi & Ht) | (img & _ & Hi & Ht)]]).
  - split_and!; reflexivity.
  - rewrite Hi, Ht. split_and!;
      [apply array_get_set_ne; congruence | now apply other_marks_cleared | exact Hp].
  - rewrite Hi, Ht. split_and!;
      [apply array_get_set_ne; congruence | now apply other_marks_set | exact Hp].
Qed.

(** A stage-3 load into cell 5 of the lit grid keeps the mark of cell 3. *)
Lemma acquire_leaves_other_cells_witness :
  3 ∈ taintedIndices (after (acquire fallbackOnly (FromUrl "http://x/z.png") 5 lit)).
Proof.
  destruct (acquire_leaves_other_cells fallbackOnly (FromUrl "http://x/z.png") 5 3 lit)
    as (_ & Hmark & _); [lia |].
  apply Hmark. vm_compute. reflexivity.
Defined.

End Frames.

(** ** Sessions *)

Section Sessions.

Implicit Types (b : Browser) (s : GridApp) (i j p : nat) (e : Event).

Lemma in_range_to_nat (z : Z) : index_in_range z = true -> Z.to_nat z < 9.
Proof.
  unfold index_in_range. rewrite andb_true_iff, !Z.leb_le. lia.
Qed.

Lemma not_out_of_range_to_nat (z : Z) :
  index_out_of_range z = false -> Z.to_nat z < 9.
Proof.
  rewrite index_out_of_range_negb, negb_false_iff. apply in_range_to_nat.
Qed.

Lemma same_cells_refl s : same_cells s s.
Proof. split; reflexivity. Qed.

(** What an event does to the cells is at most one acquisition, into a cell
    of the grid or into the pending selection; the pending selection it
    leaves is a cell of the grid or the one before. *)
Lemma handle_shape b e s :
  (exists s1,
     same_cells s1 (after (handle b e s)) /\
     (s1 = s \/
      exists src i,
        s1 = after (acquire b src i s) /\ (i < 9 \/ pendingCellIndex s = Some i))) /\
  (forall p, pendingCellIndex (after (handle b e s)) = Some p ->
             p < 9 \/ pendingCellIndex s = Some p).
Proof.
  destruct e as [x y | files | dt x y |]; cbn [handle].
  - unfold handleClick.
    generalize (index (getGridPosition (canvas b) x y)). intros idx.
    destruct (index_in_range _) eqn:Hin.
    + split.
      * exists s. split; [split; reflexivity | left; reflexivity].
      * intros p Hp. cbn in Hp. injection Hp as <-. left.
        now apply in_range_to_nat.
    + split; [exists s; split; [apply same_cells_refl | left; reflexivity] |].
      intros p Hp. right. exact Hp.
  - unfold handleFileSelect. destruct (pendingCellIndex s) as [pending |] eqn:Hpend.
    + destruct files as [| file rest].
      * split; [exists s; split; [split; reflexivity | left; reflexivity] |].
        intros p Hp. discriminate Hp.
      * pose proof (acquire_shape b (FromFile file) pending s) as [Hsame _].
        cbn [acquire] in Hsame. unfold mbind, M_bind, set_pendingCellIndex.
        destruct (loadImageFromFile b file pending s) as [[[] | |] s1 es1] eqn:Hrun;
          cbn [after] in *.
        -- split.
           ++ exists s1. split; [split; reflexivity |]. right.
              exists (FromFile file), pending. cbn [acquire]. rewrite Hrun.
              split; [reflexivity | right; reflexivity].
           ++ intros p Hp. discriminate Hp.
        -- split.
           ++ exists s1. split; [apply same_cells_refl |]. right.
              exists (FromFile file), pending. cbn [acquire]. rewrite Hrun.
              split; [reflexivity | right; reflexivity].
           ++ intros p Hp. right. congruence.
        -- split.
           ++ exists s1. split; [apply same_cells_refl |]. right.
              exists (FromFile file), pending. cbn [acquire]. rewrite Hrun.
              split; [reflexivity | right; reflexivity].
           ++ intros p Hp. right. congruence.
    + split; [exists s; split; [apply same_cells_refl | left; reflexivity] |].
      intros p Hp. cbn in Hp. congruence.
  - assert (Hstay :
      (exists s1, same_cells s1 s /\
         (s1 = s \/ exists src i, s1 = after (acquire b src i s) /\
                                  (i < 9 \/ pendingCellIndex s = Some i))) /\
      (forall p, pendingCellIndex s = Some p -> p < 9 \/ pendingCellIndex s = Some p)).
    { split; [exists s; split; [apply same_cells_refl | left; reflexivity] |].
      intros p Hp. right. exact Hp. }
    unfold handleDrop. destruct dt as [dt |]; [| exact Hstay].
    destruct (index_out_of_range _) eqn:Hout; [exact Hstay |].
    apply not_out_of_range_to_nat in Hout.
    set (i := Z.to_nat _) in *.
    assert (Hacq : forall src,
      (exists s1, same_cells s1 (after (acquire b src i s)) /\
         (s1 = s \/ exists src' i', s1 = after (acquire b src' i' s) /\
                                    (i' < 9 \/ pendingCellIndex s = Some i'))) /\
      (forall p, pendingCellIndex (after (acquire b src i s)) = Some p ->
                 p < 9 \/ pendingCellIndex s = Some p)).
    { intros src. split.
      - exists (after (acquire b src i s)). split; [apply same_cells_refl |].
        right. exists src, i. split; [reflexivity | left; exact Hout].
      - intros p Hp. right.
        destruct (acquire_shape b src i s) as [Hsame _]. congruence. }
    destruct (dt_files dt) as [| file rest].
    + destruct (truthy _); [| exact Hstay]. apply (Hacq (FromUrl _)).
    + destruct (String.prefix _ _); [| exact Hstay]. apply (Hacq (FromFile file)).
  - rewrite downloadImage_after.
    split; [exists s; split; [apply same_cells_refl | left; reflexivity] |].
    intros p Hp. right. exact Hp.
Qed.

(** X8. One event changes at most one cell: after any handler there is a
    cell [i] such that every other cell has the image and the mark it had
    before. *)
Theorem event_changes_one_cell b e s :
  exists i, forall j, j ≠ i ->
    array_get (images (after (handle b e s))) j = array_get (images s) j /\
    (j ∈ taintedIndices (after (handle b e s)) <-> j ∈ taintedIndices s).
Proof.
  destruct (handle_shape b e s) as [(s1 & [Himg Hmark] & Hs1) _].
  rewrite <- Himg, <- Hmark.
  destruct Hs1 as [-> | (src & i & -> & _)].
  - exists 0. intros j _. split; reflexivity.
  - exists i. intros j Hj.
    destruct (acquire_shape b src i s)
      as (_ & [-> | [(img & Hi & Ht) | (img & _ & Hi & Ht)]]).
    + split; reflexivity.
    + rewrite Hi, Ht. split;
        [apply array_get_set_ne; congruence | now apply other_marks_cleared].
    + rewrite Hi, Ht. split;
        [apply array_get_set_ne; congruence | now apply other_marks_set].
Qed.

(** A populated slot stays populated through an uninterrupted write. *)
Lemma commit_keeps_image s s' j :
  commit s s' -> is_Some (array_get (images s) j) ->
  is_Some (array_get (images s') j).
Proof.
  intros [i img | i img | p] Hj; cbn [images];
    [now apply array_set_keeps | now apply array_set_keeps | exact Hj].
Qed.

Lemma commits_keep_image s s' j :
  commits s s' -> is_Some (array_get (images s) j) ->
  is_Some (array_get (images s') j).
Proof.
  induction 1 as [| s1 s2 _ IH Hstep]; intros Hj; [exact Hj |].
  eapply commit_keeps_image; [exact Hstep | now apply IH].
Qed.

(** X9. No event ever clears a cell: a cell that holds an image holds one
    after any sequence of events, whatever the browser answers (the image
    may be replaced, never removed). *)
Theorem cells_are_never_cleared (evs : list (Browser * Event)) s j :
  is_Some (array_get (images s) j) ->
  is_Some (array_get (images (session evs s)) j).
Proof.
  revert s. induction evs as [| [b e] evs IH]; intros s Hj; cbn [session].
  - exact Hj.
  - apply IH. eapply commits_keep_image; [apply handle_commits | exact Hj].
Qed.

(** Cell 3 of the lit grid survives a failed drop and a local file. *)
Lemma cells_are_never_cleared_witness :
  is_Some (array_get (images (session [(offline, dropUrl); (online, dropPng)] lit)) 3).
Proof.
  apply cells_are_never_cleared. vm_compute. eauto.
Defined.

Lemma array_set_length {A} (a : list (option A)) i (v : A) :
  i < length a -> length (array_set a i v) = length a.
Proof.
  intros Hi. unfold array_set. case_decide; [apply length_insert | lia].
Qed.

Lemma well_formed_initial : well_formed initial.
Proof.
  split_and!; [reflexivity | intros p Hp; discriminate Hp |].
  intros i Hi. cbn in Hi. now apply not_elem_of_empty in Hi.
Qed.

(** Each event keeps the grid at nine slots and the indices within it. *)
Lemma handle_well_formed b e s :
  well_formed s -> well_formed (after (handle b e s)).
Proof.
  intros (Hlen & Hpend & Hmarks).
  destruct (handle_shape b e s) as [(s1 & [Himg Hmark] & Hs1) Hp].
  assert (Hp' : forall p, pendingCellIndex (after (handle b e s)) = Some p -> p < 9).
  { intros p Hsome. destruct (Hp p Hsome) as [Hlt | Hold]; [exact Hlt | now apply Hpend]. }
  unfold well_formed. rewrite <- Himg, <- Hmark.
  destruct Hs1 as [-> | (src & i & -> & Hi)].
  - split_and!; assumption.
  - assert (Hi9 : i < 9) by (destruct Hi as [Hi | Hi]; [exact Hi | now apply Hpend]).
    destruct (acquire_shape b src i s)
      as (_ & [-> | [(img & Hset & Ht) | (img & _ & Hset & Ht)]]).
    + split_and!; assumption.
    + rewrite Hset, Ht. split_and!; [| exact Hp' |].
      * rewrite array_set_length; [exact Hlen | lia].
      * intros j Hj. apply elem_of_difference in Hj as [Hj _]. now apply Hmarks.
    + rewrite Hset, Ht. split_and!; [| exact Hp' |].
      * rewrite array_set_length; [exact Hlen | lia].
      * intros j Hj. apply elem_of_union in Hj as [Hj | Hj].
        -- apply elem_of_singleton in Hj. now subst j.
        -- now apply Hmarks.
Qed.

Lemma session_well_formed (evs : list (Browser * Event)) s :
  well_formed s -> well_formed (session evs s).
Proof.
  revert s. induction evs as [| [b e] evs IH]; intros s Hwf; cbn [session].
  - exact Hwf.
  - apply IH. now apply handle_well_formed.
Qed.

(** X10. In every reachable state the grid has exactly its nine slots, and
    the pending selection and every mark are indices 0..8: the writes of the
    handlers never extend the array, because an index reaches them only
    through the range test. *)
Theorem reachable_well_formed s : reachable s -> well_formed s.
Proof.
  intros (evs & _ & ->). apply session_well_formed, well_formed_initial.
Qed.

(** The relit grid has nine slots. *)
Lemma reachable_well_formed_witness : length (images relit) = 9.
Proof.
  destruct (reachable_well_formed relit) as (Hlen & _); [| exact Hlen].
  exists [(fallbackOnly, dropUrl); (fallbackOnly, dropPng)].
  split; [| reflexivity]. repeat constructor.
Defined.

Lemma no_cors_inv_initial : no_cors_inv initial.
Proof. intros i Hi. cbn in Hi. now apply not_elem_of_empty in Hi. Qed.

(** Each event keeps the marked cells on images requested without
    [crossOrigin]. *)
Lemma handle_no_cors b e s : no_cors_inv s -> no_cors_inv (after (handle b e s)).
Proof.
  intros Hinv. destruct (handle_shape b e s) as [(s1 & [Himg Hmark] & Hs1) _].
  unfold no_cors_inv. rewrite <- Himg, <- Hmark.
  destruct Hs1 as [-> | (src & i & -> & _)]; [exact Hinv |].
  destruct (acquire_shape b src i s)
    as (_ & [-> | [(img & Hset & Ht) | (img & Hcors & Hset & Ht)]]).
  - exact Hinv.
  - rewrite Hset, Ht. intros j Hj.
    apply elem_of_difference in Hj as [Hj Hne].
    rewrite array_get_set_ne; [now apply Hinv |].
    intros ->. apply Hne. now apply elem_of_singleton.
  - rewrite Hset, Ht. intros j Hj. destruct (decide (i = j)) as [<- | Hne].
    + exists img. split; [apply array_get_set_eq | exact Hcors].
    + rewrite array_get_set_ne by exact Hne. apply Hinv.
      apply elem_of_union in Hj as [Hj | Hj]; [| exact Hj].
      apply elem_of_singleton in Hj. congruence.
Qed.

Lemma session_no_cors (evs : list (Browser * Event)) s :
  no_cors_inv s -> no_cors_inv (session evs s).
Proof.
  revert s. induction evs as [| [b e] evs IH]; intros s Hinv; cbn [session].
  - exact Hinv.
  - apply IH. now apply handle_no_cors.
Qed.

(** X11. In every reachable state a marked cell holds an image that was
    requested without [crossOrigin]: a cell whose image was loaded with CORS
    approval (stage 1 or stage 2) is never marked. *)
Theorem reachable_marks_are_no_cors s : reachable s -> no_cors_inv s.
Proof.
  intros (evs & _ & ->). apply session_no_cors, no_cors_inv_initial.
Qed.

(** The mark of cell 3 of the lit grid. *)
Lemma reachable_marks_are_no_cors_witness :
  exists img, array_get (images lit) 3 = Some img /\ img_crossOrigin img = false.
Proof.
  apply (reachable_marks_are_no_cors lit).
  - exists [(fallbackOnly, dropUrl)]. split; [| reflexivity]. repeat constructor.
  - vm_compute. reflexivity.
Defined.

End Sessions.

(** ** What a render paints *)

Section Rendering.

Implicit Types (s : GridApp) (i : nat) (ops : list CanvasOp).



(** The calls [draw] issues for one cell, by kind. *)
Lemma cellOps_kinds s i :
  length (List.filter is_image (cellOps s i)) = (if has_image s i then 1 else 0) /\
  length (List.filter is_badge (cellOps s i)) = (if has_badge s i then 1 else 0) /\
  List.filter is_placeholder (cellOps s i) = [].
Proof.
  unfold cellOps, has_badge, has_image.
  destruct (array_get (images s) i) as [img |]; cbn [is_null negb andb];
    [| split_and!; reflexivity].
  destruct (decide (i ∈ taintedIndices s)) as [Hin | Hout].
  - rewrite (bool_decide_eq_true_2 _ Hin). split_and!; reflexivity.
  - rewrite (bool_decide_eq_false_2 _ Hout). split_and!; reflexivity.
Qed.

Lemma count_flat_map (f : CanvasOp -> bool) (g : nat -> list CanvasOp)
    (h : nat -> bool) (l : list nat) :
  (forall i, length (List.filter f (g i)) = if h i then 1 else 0) ->
  length (List.filter f (flat_map g l)) = length (List.filter h l).
Proof.
  intros Hone. induction l as [| i l IH]; [reflexivity |].
  cbn [flat_map List.filter]. rewrite List.filter_app, length_app, IH, Hone.
  destruct (h i); reflexivity.
Qed.

Lemma none_flat_map (f : CanvasOp -> bool) (g : nat -> list CanvasOp) (l : list nat) :
  (forall i, List.filter f (g i) = []) -> List.filter f (flat_map g l) = [].
Proof.
  intros Hnone. induction l as [| i l IH]; [reflexivity |].
  cbn [flat_map]. now rewrite List.filter_app, IH, Hnone.
Qed.

Lemma placeholders_kinds (l : list nat) :
  List.filter is_placeholder (map placeholderOp l) = map placeholderOp l /\
  List.filter is_image (map placeholderOp l) = [] /\
  List.filter is_badge (map placeholderOp l) = [].
Proof.
  induction l as [| i l (IH1 & IH2 & IH3)]; [split_and!; reflexivity |].
  cbn [map List.filter]. change (is_placeholder (placeholderOp i)) with true.
  change (is_image (placeholderOp i)) with false.
  change (is_badge (placeholderOp i)) with false.
  cbn iota. rewrite IH1. split_and!; [reflexivity | exact IH2 | exact IH3].
Qed.

(** The calls of a whole render, by kind. *)
Lemma drawOps_kinds s :
  length (List.filter is_image (drawOps s)) = length (List.filter (has_image s) (seq 0 9)) /\
  length (List.filter is_badge (drawOps s)) = length (List.filter (has_badge s) (seq 0 9)) /\
  List.filter is_placeholder (drawOps s) =
    (if forallb is_null (images s) then map placeholderOp (seq 0 9) else []).
Proof.
  unfold drawOps. cbn [List.filter is_image is_badge is_placeholder].
  rewrite !List.filter_app. cbn [List.filter is_image is_badge is_placeholder].
  rewrite !length_app.
  rewrite (count_flat_map is_image (cellOps s) (has_image s))
    by (intros i; apply (cellOps_kinds s i)).
  rewrite (count_flat_map is_badge (cellOps s) (has_badge s))
    by (intros i; apply (cellOps_kinds s i)).
  rewrite (none_flat_map is_placeholder (cellOps s))
    by (intros i; apply (cellOps_kinds s i)).
  destruct (forallb is_null (images s)).
  - destruct (placeholders_kinds (seq 0 9)) as (-> & -> & ->).
    cbn [length app]. split_and!; [lia | lia | reflexivity].
  - cbn [List.filter length app]. split_and!; [lia | lia | reflexivity].
Qed.


(** X13. A render paints each populated cell 0..8 once and badges exactly
    the populated cells that are marked: the number of images drawn is the
    number of cells holding one, and the number of warning badges is the
    number of cells that hold an image and are in the taint set. *)
Theorem render_counts s :
  length (List.filter is_image (drawOps s)) =
    length (List.filter (has_image s) (seq 0 9)) /\
  length (List.filter is_badge (drawOps s)) =
    length (List.filter (has_badge s) (seq 0 9)).
Proof.
  destruct (drawOps_kinds s) as (Himg & Hbadge & _). split; assumption.
Qed.

End Rendering.

(** ** The picture and the export agree *)

Section BadgeAndExport.

Implicit Types (b : Browser) (s : GridApp) (i : nat).

Lemma filter_nonempty (h : nat -> bool) (l : list nat) :
  0 < length (List.filter h l) <-> exists i, In i l /\ h i = true.
Proof.
  split.
  - destruct (List.filter h l) as [| i l'] eqn:Hf; [cbn; lia |].
    intros _. exists i. apply filter_In. rewrite Hf. now left.
  - intros (i & Hin & Hi).
    assert (Hmem : In i (List.filter h l)) by (apply filter_In; split; assumption).
    destruct (List.filter h l); [destruct Hmem | cbn; lia].
Qed.

Lemma has_badge_true s i :
  has_badge s i = true <-> is_Some (array_get (images s) i) /\ i ∈ taintedIndices s.
Proof.
  unfold has_badge, has_image. rewrite andb_true_iff, bool_decide_eq_true.
  destruct (array_get (images s) i) as [img |]; cbn [is_null negb].
  - split; intros [_ Hi]; split; eauto.
  - split; [intros [Hf _]; discriminate | intros [[img Himg] _]; discriminate].
Qed.

Lemma taint_notice_iff b s :
  effects (downloadImage b s) = [Alert taintNotice] <-> taintedIndices s ≠ ∅.
Proof.
  rewrite tainted_size. unfold downloadImage. case_decide as Hpos.
  - split; [intros _; exact Hpos | reflexivity].
  - split; [| contradiction]. destruct (toDataURL b); intros Heq; discriminate Heq.
Qed.

(** X14. In every reachable state the picture and the export agree: a
    render of the state paints at least one warning badge exactly when
    [downloadImage] refuses with the notice about the images marked with an
    exclamation mark. *)
Theorem badge_iff_export_refused b s :
  reachable s ->
  0 < length (List.filter is_badge (drawOps s)) <->
  effects (downloadImage b s) = [Alert taintNotice].
Proof.
  intros (evs & _ & ->).
  set (s := session evs (after (draw initial))).
  assert (Hinv : taint_inv s) by apply session_taint_inv, taint_inv_initial.
  assert (Hwf : well_formed s) by apply session_well_formed, well_formed_initial.
  destruct Hwf as (_ & _ & Hmarks).
  destruct (drawOps_kinds s) as (_ & -> & _).
  rewrite taint_notice_iff, filter_nonempty. split.
  - intros (i & _ & Hi). apply has_badge_true in Hi as [_ Hi].
    intros Hempty. rewrite Hempty in Hi. now apply not_elem_of_empty in Hi.
  - intros Hne. apply set_choose_L in Hne as [i Hi].
    exists i. split; [apply in_seq; specialize (Hmarks i Hi); lia |].
    apply has_badge_true. split; [now apply Hinv | exact Hi].
Qed.

(** The lit grid shows a badge, and its export is refused. *)
Lemma badge_iff_export_refused_witness :
  effects (downloadImage fallbackOnly lit) = [Alert taintNotice].
Proof.
  apply (badge_iff_export_refused fallbackOnly lit).
  - exists [(fallbackOnly, dropUrl)]. split; [| reflexivity]. repeat constructor.
  - vm_compute. reflexivity.
Defined.

End BadgeAndExport.

(** ** Cover-fit: the crop *)

Section CoverFitCrop.

Local Open Scope Q_scope.

(** Half of a rounded non-negative difference, rounded, does not exceed the
    difference. *)
Lemma half_of_rounded (e : Q) : 0 <= e -> round64 (round64 e * (1 # 2)) <= e.
Proof.
  intros He. destruct (Qlt_le_dec 0 e) as [Hpos | Hzero].
  - destruct (ilog2_spec e Hpos) as [S1 S2].
    destruct (Z_le_gt_dec (-1074) (ilog2 e)) as [Hn | Hs].
    + apply Qle_trans with (pow2 (ilog2 e)); [| exact S1].
      apply Qle_trans with (round64 (pow2 (ilog2 e)));
        [| rewrite (round64_exact _ (representable_pow2 _ Hn)); apply Qle_refl].
      apply round64_mono.
      assert (Hup : round64 e <= pow2 (ilog2 e + 1)).
      { rewrite <- (round64_exact _ (representable_pow2 (ilog2 e + 1) ltac:(lia))).
        apply round64_mono. now apply Qlt_le_weak. }
      rewrite pow2_add in Hup. change (pow2 1) with 2 in Hup. lra.
    + assert (Hup : round64 e <= pow2 (-1074)).
      { rewrite <- (round64_exact _ (representable_pow2 (-1074) ltac:(lia))).
        apply round64_mono. apply Qle_trans with (pow2 (ilog2 e + 1));
          [now apply Qlt_le_weak | apply pow2_le; lia]. }
      apply Qle_trans with (round64 (pow2 (-1074) * (1 # 2))).
      * apply round64_mono. lra.
      * apply Qle_trans with 0; [vm_compute; discriminate | exact He].
  - assert (E : e == 0) by lra.
    rewrite (round64_comp _ _ E).
    assert (E0 : round64 0 * (1 # 2) == 0) by (vm_compute; reflexivity).
    rewrite (round64_comp _ _ E0), E. vm_compute. discriminate.
Qed.

(** One axis of the source rectangle: the extent [c] computed for a bitmap
    of extent [i], and its origin and extent after the clamps. *)
Lemma crop_axis (i c : Q) :
  0 < i -> 0 < c ->
  let cx := fmul (fsub i c) (clampOffset (1 # 2)) in
  let cx' := if Qltb cx 0 then 0 else cx in
  let c' := if Qltb i c then i else c in
  0 <= cx' /\ 0 < c' /\ cx' + c' <= i.
Proof.
  intros Hi Hc. cbv zeta.
  change (clampOffset (1 # 2)) with (1 # 2).
  set (cx := fmul (fsub i c) (1 # 2)).
  assert (H0 : 0 <= (if Qltb cx 0 then 0 else cx)).
  { destruct (Qltb cx 0) eqn:T; [apply Qle_refl | now apply Qltb_false in T]. }
  split; [exact H0 |].
  destruct (Qltb i c) eqn:Tc.
  - apply Qltb_true in Tc. split; [exact Hi |].
    assert (Hd : fsub i c <= 0) by (apply round64_nonpos; lra).
    assert (Hcx : cx <= 0) by (apply round64_nonpos; lra).
    destruct (Qltb cx 0) eqn:T; [lra |]. apply Qltb_false in T. lra.
  - apply Qltb_false in Tc. split; [exact Hc |].
    assert (Hcx : cx <= i - c) by (apply half_of_rounded; lra).
    destruct (Qltb cx 0) eqn:T; lra.
Qed.

(** The extents computed for the source rectangle, before the clamps, are
    positive. *)
Lemma crop_extents_pos (iw ih w h : Q) :
  moderate iw -> moderate ih -> moderate w -> moderate h ->
  let f := fit iw ih w h in
  0 < fdiv iw (fdiv (fit_nw f) w) /\ 0 < fdiv ih (fdiv (fit_nh f) h).
Proof.
  intros Hiw Hih Hw Hh f.
  destruct (proposed_size_between iw ih w h Hiw Hih Hw Hh) as [Bw Bh].
  cbv zeta in Bw, Bh.
  set (nw0 := fmul iw (Qmin (fdiv w iw) (fdiv h ih))) in *.
  set (nh0 := fmul ih (Qmin (fdiv w iw) (fdiv h ih))) in *.
  change (fit_nw f) with (fmul nw0 (correction nw0 nh0 w h)).
  change (fit_nh f) with (fmul nh0 (correction nw0 nh0 w h)).
  pose proof (correction_between nw0 nh0 w h Hw Hh Bw Bh) as Bar.
  pose proof (fmul_between nw0 _ (-300) 300 (-400) 400
                ltac:(lia) ltac:(lia) Bw Bar) as Bnw.
  pose proof (fmul_between nh0 _ (-300) 300 (-400) 400
                ltac:(lia) ltac:(lia) Bh Bar) as Bnh.
  pose proof (fdiv_between _ w (-300 + -400) (300 + 400) (-100) 100
                ltac:(lia) ltac:(lia) Bnw Hw) as Bsw.
  pose proof (fdiv_between _ h (-300 + -400) (300 + 400) (-100) 100
                ltac:(lia) ltac:(lia) Bnh Hh) as Bsh.
  pose proof (fdiv_between iw _ (-100) 100 (-300 + -400 - 100) (300 + 400 - -100)
                ltac:(lia) ltac:(lia) Hiw Bsw) as Bcw.
  pose proof (fdiv_between ih _ (-100) 100 (-300 + -400 - 100) (300 + 400 - -100)
                ltac:(lia) ltac:(lia) Hih Bsh) as Bch.
  split.
  - eapply Qlt_le_trans; [apply pow2_pos | apply Bcw].
  - eapply Qlt_le_trans; [apply pow2_pos | apply Bch].
Qed.

(** X16. For a bitmap and a cell of moderate size, the call that
    [drawImageProp] issues draws into the rectangle it was given, from a
    source rectangle that is not empty and lies within the bitmap. *)
Theorem crop_is_within_bitmap (img : HTMLImageElement) (x y w h : Q) :
  moderate (inject_Z (img_width img)) -> moderate (inject_Z (img_height img)) ->
  moderate w -> moderate h ->
  exists sx sy sw sh,
    drawImageProp img x y w h = DrawImage img sx sy sw sh x y w h /\
    (0 <= sx /\ 0 < sw /\ sx + sw <= inject_Z (img_width img)) /\
    (0 <= sy /\ 0 < sh /\ sy + sh <= inject_Z (img_height img)).
Proof.
  intros Hiw Hih Hw Hh.
  set (iw := inject_Z (img_width img)) in *.
  set (ih := inject_Z (img_height img)) in *.
  destruct (crop_extents_pos iw ih w h Hiw Hih Hw Hh) as [Pw Ph].
  assert (Piw : 0 < iw) by (eapply Qlt_le_trans; [apply pow2_pos | apply Hiw]).
  assert (Pih : 0 < ih) by (eapply Qlt_le_trans; [apply pow2_pos | apply Hih]).
  exists (fit_cx (fit iw ih w h)), (fit_cy (fit iw ih w h)),
         (fit_cw (fit iw ih w h)), (fit_ch (fit iw ih w h)).
  split; [reflexivity |]. split.
  - exact (crop_axis iw _ Piw Pw).
  - exact (crop_axis ih _ Pih Ph).
Qed.

(** A 100 x 200 bitmap in the 300 x 400 cell at the origin: the source
    rectangle lies within [0, 100] x [0, 200]. *)
Lemma crop_is_within_bitmap_witness :
  exists sx sy sw sh,
    drawImageProp (mkImage "a" true 100 200) 0 0 300 400 =
    DrawImage (mkImage "a" true 100 200) sx sy sw sh 0 0 300 400 /\
    sx + sw <= 100 /\ sy + sh <= 200.
Proof.
  destruct (crop_is_within_bitmap (mkImage "a" true 100 200) 0 0 300 400)
    as (sx & sy & sw & sh & Hop & (_ & _ & Hx) & (_ & _ & Hy));
    [ split; vm_compute; discriminate | split; vm_compute; discriminate
    | split; vm_compute; discriminate | split; vm_compute; discriminate |].
  exists sx, sy, sw, sh. split_and!; assumption.
Defined.

(** The source rectangles of two bitmaps, as computed.  A 100 x 200 bitmap
    keeps its width and the middle two thirds of its height.  A 281 x 281
    bitmap is cropped horizontally, and its vertical extent, computed larger
    than the bitmap because the scaled height falls short of the cell by
    rounding, is clamped to the bitmap. *)
Lemma crop_examples :
  (fit_cx (fit 100 200 300 400) == 0 /\ fit_cw (fit 100 200 300 400) == 100 /\
   fit_ch (fit 100 200 300 400) == fdiv 200 (3 # 2) /\
   33 < fit_cy (fit 100 200 300 400) /\
   fit_cy (fit 100 200 300 400) + fit_ch (fit 100 200 300 400) < 167) /\
  (0 < fit_cx (fit 281 281 300 400) /\ fit_cy (fit 281 281 300 400) == 0 /\
   fit_cw (fit 281 281 300 400) < 281 /\ fit_ch (fit 281 281 300 400) == 281 /\
   281 < fdiv 281 (fdiv (fit_nh (fit 281 281 300 400)) 400)).
Proof. split_and!; vm_compute; reflexivity. Qed.

End CoverFitCrop.

(** ** Drops of files, and the export after one *)

Section FileDrops.

Implicit Types (b : Browser) (s : GridApp) (i : nat) (dt : DataTransfer).

(** A drop that carries files, on a cell of the grid, is the local load of
    its first file when that is an image, and nothing otherwise. *)
Lemma handleDrop_files b dt (file : File) (rest : list File) (x y : Q) s :
  dt_files dt = file :: rest ->
  handleDrop b (Some dt) x y s =
  if index_out_of_range (index (getGridPosition (canvas b) x y)) then mkRun (Fulfilled tt) s []
  else if String.prefix "image/" (file_type file)
       then loadImageFromFile b file (Z.to_nat (index (getGridPosition (canvas b) x y))) s
       else mkRun (Fulfilled tt) s [].
Proof.
  intros Hfiles. unfold handleDrop. rewrite Hfiles.
  destruct (index_out_of_range _); [reflexivity |].
  destruct (String.prefix _ _); reflexivity.
Qed.

Lemma only_mark_cleared (T : gset nat) i : T ⊆ {[i]} -> T ∖ {[i]} = ∅.
Proof.
  intros Hsub. apply leibniz_equiv. intros j. split.
  - intros Hj. apply elem_of_difference in Hj as [Hj Hne]. exfalso.
    apply Hne. now apply Hsub.
  - intros Hj. now apply not_elem_of_empty in Hj.
Qed.

(** X17. When cell [i] is the only marked cell and a local image file that
    decodes is dropped where the computed buffer coordinate lies inside its
    rectangle, no mark is left, so the next [downloadImage] does not show
    the notice about marked images: it serialises the canvas, and clicks the
    download link when the serialisation returns or shows the other notice
    when it throws. *)
Theorem local_file_lifts_taint_refusal b (b' : Browser) dt (file : File)
    (rest : list File) (clientX clientY : Q) i s :
  i < 9 ->
  displayed (canvas b) -> finitely_scaled (canvas b) clientX clientY ->
  (cellX i <= surfaceX (canvas b) clientX /\
   surfaceX (canvas b) clientX < cellX i + cellWidth)%Q ->
  (cellY i <= surfaceY (canvas b) clientY /\
   surfaceY (canvas b) clientY < cellY i + cellHeight)%Q ->
  dt_files dt = file :: rest ->
  String.prefix "image/" (file_type file) = true ->
  path_taken b (FromFile file) = LocalFile ->
  taintedIndices s ⊆ {[i]} ->
  let s' := after (handleDrop b (Some dt) clientX clientY s) in
  taintedIndices s' = ∅ /\
  effects (downloadImage b' s') =
  match toDataURL b' with
  | Some href => [LinkClick "3x3-grid.png" href]
  | None => [Alert exportFailedNotice; ConsoleErrorException]
  end.
Proof.
  intros Hi _ _ [Hx0 Hx1] [Hy0 Hy1] Hfiles Htype Hpath Hsub s'. subst s'.
  rewrite (handleDrop_files b dt file rest _ _ s Hfiles).
  rewrite (getGridPosition_in_cell _ _ _ i Hi Hx0 Hx1 Hy0 Hy1). cbn [index].
  rewrite index_out_of_range_negb, (cell_in_range i Hi), Htype, Nat2Z.id.
  cbn [negb].
  destruct (loadImageFromFile_loaded b file i s Hpath)
    as (dataUrl & w & h & _ & _ & Hrun).
  cbv zeta in Hrun. rewrite Hrun. cbn [after].
  unfold downloadImage. cbn [taintedIndices].
  rewrite (only_mark_cleared _ i Hsub), size_empty.
  split; [reflexivity |].
  case_decide; [lia |]. destruct (toDataURL b'); reflexivity.
Qed.

(** The lit grid, a PNG dropped on cell 3, then the export on a canvas whose
    serialisation throws, as that of a canvas does on which an image loaded
    without CORS was drawn. *)
Lemma local_file_lifts_taint_refusal_witness :
  effects (downloadImage (unclean online) (after (handleDrop online
     (Some (mkDataTransfer [png] "" "" "")) 100 500 lit))) =
  [Alert exportFailedNotice; ConsoleErrorException].
Proof.
  destruct (local_file_lifts_taint_refusal online (unclean online)
              (mkDataTransfer [png] "" "" "") png [] 100 500 3 lit)
    as [_ Hexport];
    [ lia | split; reflexivity
    | split_and!; vm_compute; reflexivity
    | split; [vm_compute; discriminate | vm_compute; reflexivity]
    | split; [vm_compute; discriminate | vm_compute; reflexivity]
    | reflexivity | reflexivity | reflexivity | reflexivity |].
  exact Hexport.
Defined.

(** X18. A drop that carries at least one file never looks at its URL
    payloads and never marks a cell: the run is the same for any HTML, URI
    list and plain text, and the taint set afterwards is contained in the one
    before. *)
Theorem file_drop_ignores_urls b dt (dt' : DataTransfer) (x y : Q) s :
  dt_files dt ≠ [] -> dt_files dt' = dt_files dt ->
  handleDrop b (Some dt') x y s = handleDrop b (Some dt) x y s /\
  taintedIndices (after (handleDrop b (Some dt) x y s)) ⊆ taintedIndices s.
Proof.
  intros Hsome Hsame. destruct (dt_files dt) as [| file rest] eqn:Hfiles;
    [contradiction |].
  rewrite (handleDrop_files b dt file rest x y s Hfiles).
  rewrite (handleDrop_files b dt' file rest x y s Hsame).
  split; [reflexivity |].
  destruct (index_out_of_range _); [reflexivity |].
  destruct (String.prefix _ _); [| reflexivity].
  set (i := Z.to_nat _).
  pose proof (loadImageFromFile_run b file i s) as Hrun. cbv zeta in Hrun.
  destruct (path_taken b (FromFile file)); try contradiction.
  - destruct Hrun as (dataUrl & w & h & _ & _ & -> & _). cbn [taintedIndices].
    intros j Hj. now apply elem_of_difference in Hj as [Hj _].
  - rewrite Hrun. reflexivity.
  - rewrite Hrun. reflexivity.
Qed.

(** A PNG dropped together with an image element and a URI list. *)
Lemma file_drop_ignores_urls_witness :
  handleDrop online (Some (mkDataTransfer [png] "<img src=A>" "B" "http://c")) 100 500 lit =
  handleDrop online (Some (mkDataTransfer [png] "" "" "")) 100 500 lit.
Proof.
  destruct (file_drop_ignores_urls online (mkDataTransfer [png] "" "" "")
              (mkDataTransfer [png] "<img src=A>" "B" "http://c") 100 500 lit)
    as [Hsame _]; [discriminate | reflexivity |].
  exact Hsame.
Defined.

End FileDrops.

(** ** What acquisitions and handlers never do *)

Section Quiet.

Implicit Types (b : Browser) (s : GridApp) (i : nat) (e : Event).

Ltac answers :=
  repeat match goal with
    | |- context [readAsDataURL ?b ?f] => destruct (readAsDataURL b f) eqn:?
    | |- context [loadOutcome ?b ?u ?c] => destruct (loadOutcome b u c) eqn:?
    end.

Ltac unfold_loads :=
  unfold acquire, loadImageFromUrl, loadImageFromFile, attempt, loadImage, setImage,
    taintedIndices_delete, taintedIndices_add, emit, draw, skip,
    mbind, M_bind, mret, M_ret;
  cbn [outcome after effects app images taintedIndices pendingCellIndex].

(** X19. A successful acquisition overwrites the cell: the image in slot
    [i] and the mark of [i] afterwards are determined by the source and the
    browser's answers alone, whatever the cell held and however it was
    marked before (last write wins). *)
Theorem successful_acquisition_overwrites b (src : Source) i s (s' : GridApp) :
  succeeded (path_taken b src) = true ->
  array_get (images (after (acquire b src i s))) i =
  array_get (images (after (acquire b src i s'))) i /\
  (i ∈ taintedIndices (after (acquire b src i s)) <->
   i ∈ taintedIndices (after (acquire b src i s'))).
Proof.
  destruct src as [file | url]; unfold path_taken; unfold_loads; answers;
    cbn [succeeded outcome after effects app images taintedIndices pendingCellIndex];
    intros Hok; try discriminate Hok;
    (split; [now rewrite !array_get_set_eq |]).
  - split; intros H; now apply mark_cleared in H.
  - split; intros H; now apply mark_cleared in H.
  - split; intros H; now apply mark_cleared in H.
  - split; intros _; apply mark_set.
Qed.

(** A local file over the marked cell 3, and over the empty cell 3. *)
Lemma successful_acquisition_overwrites_witness :
  array_get (images (after (acquire online (FromFile png) 3 lit))) 3 =
  array_get (images (after (acquire online (FromFile png) 3 initial))) 3.
Proof.
  destruct (successful_acquisition_overwrites online (FromFile png) 3 lit initial)
    as [Himg _]; [reflexivity |].
  exact Himg.
Defined.

(** An acquisition shows no notice and triggers no download. *)
Lemma acquire_quiet b (src : Source) i s :
  alerts (effects (acquire b src i s)) = [] /\
  downloads (effects (acquire b src i s)) = [].
Proof.
  destruct src as [file | url]; unfold_loads; answers;
    cbn [outcome after effects app images taintedIndices pendingCellIndex];
    split; reflexivity.
Qed.

(** X20. Only the download button ever shows a notice or triggers a
    download: a click on the canvas, a file selection and a drop, whatever
    they carry and however their loads end, raise no alert and click no
    link. *)
Theorem only_export_alerts_or_downloads b e s :
  e ≠ ClickDownload ->
  alerts (effects (handle b e s)) = [] /\ downloads (effects (handle b e s)) = [].
Proof.
  intros Hne. destruct e as [x y | files | dt x y |]; [| | | contradiction];
    cbn [handle].
  - unfold handleClick. generalize (index (getGridPosition (canvas b) x y)).
    intros idx. destruct (index_in_range _); split; reflexivity.
  - unfold handleFileSelect. destruct (pendingCellIndex s) as [p |];
      [| split; reflexivity].
    destruct files as [| file rest]; [split; reflexivity |].
    pose proof (acquire_quiet b (FromFile file) p s) as [Ha Hd].
    cbn [acquire] in Ha, Hd. unfold mbind, M_bind, set_pendingCellIndex.
    destruct (loadImageFromFile b file p s) as [[[] | |] s1 es1];
      cbn [effects] in *; rewrite ?app_nil_r; split; assumption.
  - unfold handleDrop. destruct dt as [dt |]; [| split; reflexivity].
    generalize (index (getGridPosition (canvas b) x y)). intros idx.
    destruct (index_out_of_range _); [split; reflexivity |].
    destruct (dt_files dt) as [| file rest].
    + destruct (truthy _); [| split; reflexivity].
      apply (acquire_quiet b (FromUrl _)).
    + destruct (String.prefix _ _); [| split; reflexivity].
      apply (acquire_quiet b (FromFile file)).
Qed.

(** A failed drop of a URL raises no alert. *)
Lemma only_export_alerts_or_downloads_witness :
  alerts (effects (handle offline dropUrl lit)) = [] /\
  downloads (effects (handle offline dropUrl lit)) = [].
Proof.
  apply (only_export_alerts_or_downloads offline dropUrl lit). discriminate.
Defined.

End Quiet.
